(** * Local PCA intrinsic-dimension estimation: [skdim/lid/_PCA.py]

    The four selection rules of class [lPCA] ([_FO], [_maxgap], [_ratio],
    [_fan]) are embedded as computations in a state-and-exception monad over
    a heap of numpy arrays, so that the in-place update performed by [_fan]
    is visible to whoever holds the same array.

    Numbers.  A float64 is idealised as an exact rational or one of the
    three special values that numpy produces on division by zero
    ([+inf], [-inf], [nan]); rounding, overflow and the sign of zero are
    not modelled.  Integers ([de], indices, lengths) are [Z].  The
    statements speak of the sums, products and quotients the code forms;
    where a proof needs a fact of arithmetic it is one that float64
    arithmetic shares: the order of values, that sums of non-negative
    terms, products and quotients are monotone, [1 * x = x],
    [x - x = 0], [x / 1 = x], [0 / 0 = nan].

    The decomposition [PCA().fit(X)] is an external collaborator: its
    result [explained_variance_] is the array the rules receive. *)

From Stdlib Require Import ZArith QArith Lqa List Bool Lia String.
From stdpp Require Import base gmap.
Import ListNotations.
Open Scope Z_scope.

(** ** Floats *)

Inductive float : Type :=
| Fin (q : Q)
| PInf
| NInf
| NaN.

Definition Qltb (a b : Q) : bool := negb (Qle_bool b a).

Module F.

Definition zero : float := Fin 0.

Definition of_Z (n : Z) : float := Fin (inject_Z n).

Definition isnan (x : float) : bool :=
  match x with NaN => true | _ => false end.

Definition neg (x : float) : float :=
  match x with
  | Fin q => Fin (- q)
  | PInf => NInf
  | NInf => PInf
  | NaN => NaN
  end.

Definition add (x y : float) : float :=
  match x, y with
  | NaN, _ | _, NaN => NaN
  | Fin a, Fin b => Fin (a + b)
  | PInf, NInf | NInf, PInf => NaN
  | PInf, _ | _, PInf => PInf
  | NInf, _ | _, NInf => NInf
  end.

Definition sub (x y : float) : float := add x (neg y).

(** [inf * 0] is [nan]; otherwise the sign of an infinite product is the
    product of the signs. *)
Definition scale_inf (positive_inf : bool) (q : Q) : float :=
  if Qltb 0 q then (if positive_inf then PInf else NInf)
  else if Qltb q 0 then (if positive_inf then NInf else PInf)
  else NaN.

Definition mul (x y : float) : float :=
  match x, y with
  | NaN, _ | _, NaN => NaN
  | Fin a, Fin b => Fin (a * b)
  | PInf, Fin q | Fin q, PInf => scale_inf true q
  | NInf, Fin q | Fin q, NInf => scale_inf false q
  | PInf, PInf | NInf, NInf => PInf
  | PInf, NInf | NInf, PInf => NInf
  end.

(** numpy division: a finite non-zero value over zero is an infinity of
    the sign of the numerator, [0/0] and [inf/inf] are [nan], a finite
    value over an infinity is zero. *)
Definition div (x y : float) : float :=
  match x, y with
  | NaN, _ | _, NaN => NaN
  | Fin a, Fin b =>
      if Qeq_bool b 0 then scale_inf true a else Fin (a / b)
  | Fin _, (PInf | NInf) => Fin 0
  | PInf, Fin b => if Qltb b 0 then NInf else PInf
  | NInf, Fin b => if Qltb b 0 then PInf else NInf
  | (PInf | NInf), (PInf | NInf) => NaN
  end.

(** [x > y]; every comparison with [nan] is [False]. *)
Definition gtb (x y : float) : bool :=
  match x, y with
  | NaN, _ | _, NaN => false
  | Fin a, Fin b => Qltb b a
  | PInf, PInf => false
  | PInf, _ => true
  | _, PInf => false
  | NInf, _ => false
  | Fin _, NInf => true
  end.

End F.

(** ** Exceptions, heap and the monad of method bodies *)

Inductive exn : Type :=
| IndexError
| ValueError
| NameError.

Inductive result (A : Type) : Type :=
| Ok (a : A)
| Raise (e : exn).
Arguments Ok {A} a.
Arguments Raise {A} e.

(** An array object is identified by its address; the heap maps the
    address of every live float64 array to its contents. *)
Definition loc : Type := positive.
Abbreviation heap := (gmap loc (list float)).

Definition M (A : Type) : Type := heap -> result A * heap.

Definition ret {A} (a : A) : M A := fun h => (Ok a, h).

Definition raise {A} (e : exn) : M A := fun h => (Raise e, h).

Definition bind {A B} (m : M A) (k : A -> M B) : M B :=
  fun h =>
    match m h with
    | (Ok a, h') => k a h'
    | (Raise e, h') => (Raise e, h')
    end.

Definition lift {A} (r : result A) : M A := fun h => (r, h).

Notation "x <- m ;; k" := (bind m (fun x => k))
  (at level 100, m at next level, right associativity).
Notation "m ;;; k" := (bind m (fun _ => k))
  (at level 100, right associativity).

(** Reading the array a name is bound to.  A Python name always refers to
    a live object, so the [NameError] branch is never taken from a caller
    that passes an allocated array. *)
Definition load (r : loc) : M (list float) :=
  fun h => match h !! r with
           | Some v => (Ok v, h)
           | None => (Raise NameError, h)
           end.

(** Overwriting the contents of an array in place. *)
Definition store (r : loc) (v : list float) : M unit :=
  fun h => (Ok tt, <[r := v]> h).

(** ** The numpy and Python primitives the rules use *)

Definition len {A} (l : list A) : Z := Z.of_nat (length l).

(** [a[i]] for an integer [i]: negative indices count from the end, an
    index outside [-len, len) raises [IndexError]. *)
Definition getitem {A} (l : list A) (i : Z) : result A :=
  let k := if i <? 0 then len l + i else i in
  if (0 <=? k) && (k <? len l) then
    match nth_error l (Z.to_nat k) with
    | Some x => Ok x
    | None => Raise IndexError
    end
  else Raise IndexError.

(** [a[:-1]] and [a[1:]]. *)
Definition but_last {A} (l : list A) : list A := removelast l.
Definition from_1 {A} (l : list A) : list A := tl l.

(** [a[r:]] for an integer [r]. *)
Definition slice_from {A} (r : Z) (l : list A) : list A :=
  let k := if r <? 0 then Z.max 0 (len l + r) else r in
  skipn (Z.to_nat k) l.

(** Elementwise binary operation on two arrays of the same length. *)
Fixpoint map2 {A B C} (f : A -> B -> C) (l1 : list A) (l2 : list B) : list C :=
  match l1, l2 with
  | x :: t1, y :: t2 => f x y :: map2 f t1 t2
  | _, _ => []
  end.

(** Python's builtin [sum]: starts from the integer [0] and adds the
    elements from left to right. *)
Definition py_sum (l : list float) : float := fold_left F.add l F.zero.

(** [sum] over a boolean array counts the [True] entries. *)
Definition py_sum_bool (l : list bool) : Z :=
  fold_left (fun acc (b : bool) => acc + (if b then 1 else 0)) l 0.

Module np.

Fixpoint scan (acc : float) (l : list float) : list float :=
  match l with
  | [] => []
  | x :: t => let acc' := F.add acc x in acc' :: scan acc' t
  end.

(** [np.cumsum]: running sums, the first one being the first element. *)
Definition cumsum (l : list float) : list float :=
  match l with
  | [] => []
  | x :: t => x :: scan x t
  end.

Fixpoint where_from (i : Z) (l : list bool) : list Z :=
  match l with
  | [] => []
  | b :: t => if b then i :: where_from (i + 1) t else where_from (i + 1) t
  end.

(** [np.where(cond)[0]]: the indices of the [True] entries, ascending. *)
Definition where_ (l : list bool) : list Z := where_from 0 l.

(** [np.min] of an integer array; an empty array has no minimum. *)
Definition min (l : list Z) : result Z :=
  match l with
  | [] => Raise ValueError
  | x :: t => Ok (fold_left Z.min t x)
  end.

(** [np.add.reduce]. *)
Definition sum (l : list float) : float :=
  match l with
  | [] => F.zero
  | x :: t => fold_left F.add t x
  end.

(** [np.mean]: the sum over the number of elements ([nan] when empty). *)
Definition mean (l : list float) : float :=
  F.div (sum l) (F.of_Z (len l)).

(** [np.argmax] on an array without [nan]: the first index holding the
    maximum.  [best] is the current maximum, found at [bi]; [i] is the
    index of the head of [l]. *)
Fixpoint argmax_from (best : float) (bi i : Z) (l : list float) : Z :=
  match l with
  | [] => bi
  | x :: t =>
      if F.gtb x best then argmax_from x i (i + 1) t
      else argmax_from best bi (i + 1) t
  end.

Definition argmax (l : list float) : result Z :=
  match l with
  | [] => Raise ValueError
  | x :: t => Ok (argmax_from x 0 1 t)
  end.

(** [np.nanargmax]: [nan] entries are replaced by [-inf]; a slice made
    of [nan] only raises [ValueError]; then [np.argmax]. *)
Definition nanargmax (l : list float) : result Z :=
  let a := map (fun x => if F.isnan x then NInf else x) l in
  if negb (Nat.eqb (length l) 0) && forallb F.isnan l then Raise ValueError
  else argmax a.

End np.

(** ** The estimator *)

Record lPCA : Type := {
  ver : string;
  alphaRatio : float;
  alphaFO : float;
  alphaFan : float;
  betaFan : float;
  PFan : float;
  verbose : bool
}.

(** [explained_var[:-1] / explained_var[1:]]. *)
Definition gaps_of (v : list float) : list float :=
  map2 F.div (but_last v) (from_1 v).

Definition _FO (self : lPCA) (explained_var : loc) : M (Z * float) :=
  v <- load explained_var ;;
  v0 <- lift (getitem v 0) ;;
  let de := py_sum_bool (map (fun x => F.gtb x (F.mul (alphaFO self) v0)) v) in
  let gaps := gaps_of v in
  if de - 1 <? len gaps then
    g <- lift (getitem gaps (de - 1)) ;; ret (de, g)
  else
    g <- lift (getitem gaps (-1)) ;; ret (de, g).

Definition _maxgap (explained_var : loc) : M (Z * float) :=
  v <- load explained_var ;;
  let gaps := gaps_of v in
  i <- lift (np.nanargmax gaps) ;;
  let de := i + 1 in
  if de - 1 <? len gaps then
    g <- lift (getitem gaps (de - 1)) ;; ret (de, g)
  else
    g <- lift (getitem gaps (-1)) ;; ret (de, g).

Definition _ratio (self : lPCA) (explained_var : loc) : M Z :=
  v <- load explained_var ;;
  let sumexp := np.cumsum v in
  let idx_threshold :=
    np.where_ (map (fun s => F.gtb s (alphaRatio self)) sumexp) in
  if len idx_threshold =? 0 then
    ret (len v)
  else
    m <- lift (np.min idx_threshold) ;; ret (m + 1).

Definition _fan (self : lPCA) (explained_var : loc) : M (Z * float) :=
  v <- load explained_var ;;
  r <- lift (getitem
               (np.where_
                  (map (fun c => F.gtb (F.div c (py_sum v)) (PFan self))
                       (np.cumsum v))) 0) ;;
  let sigma := np.mean (slice_from r v) in
  (* explained_var -= sigma : the array object itself is overwritten *)
  store explained_var (map (fun x => F.sub x sigma) v) ;;;
  v' <- load explained_var ;;
  let gaps := gaps_of v' in
  m <- lift (np.min
               (np.where_ (map (fun g => F.gtb g (alphaFan self)) gaps) ++
                np.where_
                  (map (fun c => F.gtb (F.div c (py_sum v')) (betaFan self))
                       (np.cumsum v')))) ;;
  let de := 1 + m in
  if de - 1 <? len gaps then
    g <- lift (getitem gaps (de - 1)) ;; ret (de, g)
  else
    g <- lift (getitem gaps (-1)) ;; ret (de, g).

(** What [_pcaLocalDimEst] returns: a pair for three of the rules, a bare
    integer for [ratio], and [None] for an unknown version string. *)
Inductive estimate : Type :=
| DimGap (de : Z) (gap : float)
| Dim (de : Z)
| PyNone.

Definition with_gap (m : M (Z * float)) : M estimate :=
  p <- m ;; ret (DimGap (fst p) (snd p)).

(** The dispatch of [_pcaLocalDimEst], applied to the spectrum that
    [PCA().fit(X).explained_variance_] produced. *)
Definition _pcaLocalDimEst (self : lPCA) (explained_var : loc) : M estimate :=
  if String.eqb (ver self) "FO" then with_gap (_FO self explained_var)
  else if String.eqb (ver self) "fan" then with_gap (_fan self explained_var)
  else if String.eqb (ver self) "maxgap" then with_gap (_maxgap explained_var)
  else if String.eqb (ver self) "ratio" then
    de <- _ratio self explained_var ;; ret (Dim de)
  else ret PyNone.

(** The defaults of [__init__]. *)
Definition default (version : string) : lPCA :=
  {| ver := version;
     alphaRatio := Fin (5 # 100);
     alphaFO := Fin (5 # 100);
     alphaFan := Fin 10;
     betaFan := Fin (8 # 10);
     PFan := Fin (95 # 100);
     verbose := true |}.

(** ** Notions the specification is worded in *)

(** [gapAt de]: the gap [gaps[de-1]], clamped to the last available gap
    when [de-1] does not index [gaps] (for [de = 0] the index [-1] denotes
    the last element as well). *)
Definition gapAt (gaps : list float) (de : Z) : option float :=
  if (1 <=? de) && (de - 1 <? len gaps)
  then nth_error gaps (Z.to_nat (de - 1))
  else nth_error gaps (length gaps - 1).

(** The number of entries of [v] that exceed [thr]. *)
Definition count_exceeding (thr : float) (v : list float) : Z :=
  len (List.filter (fun x => F.gtb x thr) v).

(** [v[0] + ... + v[k-1]], added from left to right. *)
Definition prefix_sum (v : list float) (k : nat) : float :=
  match firstn k v with
  | [] => F.zero
  | x :: t => fold_left F.add t x
  end.

(** [n] is the smallest index with property [P]. *)
Definition least (P : nat -> Prop) (n : nat) : Prop :=
  P n /\ forall j, (j < n)%nat -> ~ P j.

(** An entry of a valid spectrum: finite and non-negative. *)
Definition nonneg (x : float) : Prop :=
  match x with Fin q => (0 <= q)%Q | _ => False end.

(** [x >= y] between finite values. *)
Definition fin_ge (x y : float) : Prop :=
  match x, y with Fin a, Fin b => (b <= a)%Q | _, _ => False end.

Fixpoint nonincreasing (v : list float) : Prop :=
  match v with
  | x :: t => match t with
              | y :: _ => fin_ge x y /\ nonincreasing t
              | [] => True
              end
  | [] => True
  end.

(** A valid spectrum: at least two eigenvalues, all finite and
    non-negative, sorted in non-increasing order. *)
Record spectrum (v : list float) : Prop := {
  sp_len : (2 <= length v)%nat;
  sp_nonneg : Forall nonneg v;
  sp_sorted : nonincreasing v
}.

Definition ex_spectrum : list float :=
  [Fin 10; Fin 9; Fin 1; Fin (9 # 10); Fin (1 # 10)].

(** A heap holding one array, at address [1]. *)
Definition one_array (v : list float) : heap := {[ 1%positive := v ]}.

(** ** Further notions used in statements and proofs *)

(** The closing lines shared by [_FO], [_maxgap] and [_fan]. *)
Definition report (de : Z) (gaps : list float) : M (Z * float) :=
  if de - 1 <? len gaps then
    g <- lift (getitem gaps (de - 1)) ;; ret (de, g)
  else
    g <- lift (getitem gaps (-1)) ;; ret (de, g).

(** [cumsum(v)[i] / sum(v)]. *)
Definition cum_fraction (v : list float) (i : nat) : float :=
  F.div (prefix_sum v (S i)) (py_sum v).

(** [v - mean(v[r:])]. *)
Definition shifted (v : list float) (r : nat) : list float :=
  map (fun x => F.sub x (np.mean (skipn r v))) v.

(** [r] starts the noise tail of [v]. *)
Definition noise_tail_start (self : lPCA) (v : list float) (r : nat) : Prop :=
  least (fun i => (i < length v)%nat /\
                  F.gtb (cum_fraction v i) (PFan self) = true) r.

(** One of the two stopping conditions of the fan rule holds at index [i]
    of the shifted spectrum [v']. *)
Definition fan_stop (self : lPCA) (v' : list float) (i : nat) : Prop :=
  (exists g, nth_error (gaps_of v') i = Some g /\
             F.gtb g (alphaFan self) = true) \/
  ((i < length v')%nat /\ F.gtb (cum_fraction v' i) (betaFan self) = true).

(** The first statement of [_fan]: the search for the noise tail. *)
Definition fan_tail_search (self : lPCA) (v : list float) : result Z :=
  getitem
    (np.where_ (map (fun c => F.gtb (F.div c (py_sum v)) (PFan self))
                    (np.cumsum v))) 0.

(** The cut-off search of [_fan] on the shifted spectrum. *)
Definition fan_cut_search (self : lPCA) (v' : list float) : result Z :=
  np.min
    (np.where_ (map (fun g => F.gtb g (alphaFan self)) (gaps_of v')) ++
     np.where_ (map (fun c => F.gtb (F.div c (py_sum v')) (betaFan self))
                    (np.cumsum v'))).

(** [k] is the first index of [a] that holds its maximum. *)
Definition first_max (a : list float) (k : nat) : Prop :=
  exists m, nth_error a k = Some m /\
    (forall j x, nth_error a j = Some x -> F.isnan x = false ->
                 F.gtb x m = false) /\
    (forall j x, (j < k)%nat -> nth_error a j = Some x ->
                 F.isnan x = false -> F.gtb m x = true).

(** The replacement of [nan] by [-inf] that [np.nanargmax] performs. *)
Definition nan_to_ninf (l : list float) : list float :=
  map (fun x => if F.isnan x then NInf else x) l.


(** [x == y] on floats: [nan] differs from everything, itself included. *)
Definition float_eqb (x y : float) : bool :=
  match x, y with
  | Fin a, Fin b => Qeq_bool a b
  | PInf, PInf | NInf, NInf => true
  | _, _ => false
  end.

(** [np.array_equal]: same length and equal entries. *)
Fixpoint array_equal (a b : list float) : bool :=
  match a, b with
  | [], [] => true
  | x :: a', y :: b' => float_eqb x y && array_equal a' b'
  | _, _ => false
  end.

(** The exact sum of the entries of a finite array. *)
Definition qval (x : float) : Q :=
  match x with Fin q => q | _ => 0%Q end.

Definition total (v : list float) : Q :=
  fold_right (fun x s => (qval x + s)%Q) 0%Q v.

(** ** Concrete configurations and spectra *)

Definition fo_one : lPCA :=
  {| ver := "FO"; alphaRatio := Fin (5 # 100); alphaFO := Fin 1;
     alphaFan := Fin 10; betaFan := Fin (8 # 10); PFan := Fin (95 # 100);
     verbose := true |}.

Definition zero_spectrum : list float := [Fin 0; Fin 0].

Definition fan_ex : list float := [Fin 10; Fin 9; Fin 1; Fin 1; Fin 1].

Definition flat_ex : list float := [Fin 1; Fin 1].

Definition tiny_ex : list float := [Fin (1 # 100); Fin (1 # 100)].

Definition steep_ex : list float := [Fin 100; Fin 4; Fin 1; Fin 1].

(** [PFan = 0.95], [alphaFan = 1e9], [betaFan = 1.0]. *)
Definition fan_unreachable : lPCA :=
  {| ver := "fan"; alphaRatio := Fin (5 # 100); alphaFO := Fin (5 # 100);
     alphaFan := Fin 1000000000; betaFan := Fin 1; PFan := Fin (95 # 100);
     verbose := true |}.

(** ** Notions used in further properties *)

(** A finite, strictly positive entry. *)
Definition positive_entry (x : float) : Prop :=
  match x with Fin q => (0 < q)%Q | _ => False end.

(** The four version strings [_pcaLocalDimEst] knows. *)
Definition known_version (s : string) : bool :=
  String.eqb s "FO" || String.eqb s "fan" || String.eqb s "maxgap"
  || String.eqb s "ratio".

(** ** The fan rule in the words of its contract *)

(** The notions below are written without the helpers of the embedding
    ([gaps_of], [py_sum], [np.sum], [np.mean]): the statements about
    [_fan] that use them fix what those helpers compute. *)

(** [gaps[i] = v[i] / v[i+1]] for [i = 0 .. d-2]. *)
Fixpoint ratios (v : list float) : list float :=
  match v with
  | x :: t => match t with
              | y :: _ => F.div x y :: ratios t
              | [] => []
              end
  | [] => []
  end.

(** [acc + l[0] + l[1] + ...], from left to right. *)
Fixpoint sum_from (acc : float) (l : list float) : float :=
  match l with
  | [] => acc
  | x :: t => sum_from (F.add acc x) t
  end.

(** [sum(v)]: [0 + v[0] + ... + v[d-1]]. *)
Definition sum_lr (v : list float) : float := sum_from (Fin 0) v.

(** [mean(l)]: [(l[0] + ... + l[k-1]) / k], and [0/0] for no entry. *)
Definition mean_of (l : list float) : float :=
  match l with
  | [] => F.div (Fin 0) (Fin 0)
  | x :: t => F.div (sum_from x t) (Fin (inject_Z (Z.of_nat (length l))))
  end.

(** [cumsum(v)[i] / sum(v)]. *)
Definition fraction_of (v : list float) (i : nat) : float :=
  F.div (prefix_sum v (S i)) (sum_lr v).

(** [v - sigma]. *)
Definition shift_by (sigma : float) (v : list float) : list float :=
  map (fun x => F.sub x sigma) v.

(** [r] is the smallest index whose cumulative fraction exceeds [PFan]. *)
Definition fan_tail (self : lPCA) (v : list float) (r : nat) : Prop :=
  least (fun i => (i < length v)%nat /\
                  F.gtb (fraction_of v i) (PFan self) = true) r.

(** At index [i] of [v'], the gap [v'[i]/v'[i+1]] exceeds [alphaFan] or
    the cumulative fraction exceeds [betaFan]. *)
Definition fan_cut (self : lPCA) (v' : list float) (i : nat) : Prop :=
  (exists x y, nth_error v' i = Some x /\ nth_error v' (S i) = Some y /\
               F.gtb (F.div x y) (alphaFan self) = true) \/
  ((i < length v')%nat /\ F.gtb (fraction_of v' i) (betaFan self) = true).

(** The defaults, with [PFan = 1.0]. *)
Definition fan_PFan_one : lPCA :=
  {| ver := "fan"; alphaRatio := Fin (5 # 100); alphaFO := Fin (5 # 100);
     alphaFan := Fin 10; betaFan := Fin (8 # 10); PFan := Fin 1;
     verbose := true |}.

(** ** The public entry point: [fit] *)

(** A two-dimensional float64 array: its shape and its cells, row after
    row. *)
Record ndarray2 : Type := {
  shape0 : Z;
  shape1 : Z;
  cells : list float
}.

(** The two functions of scikit-learn that [fit] calls.  [check_array]
    converts and validates its argument; [pca_explained_variance X] stands
    for [PCA().fit(X).explained_variance_].  Either may raise. *)
Class Sklearn : Type := {
  check_array : ndarray2 -> result ndarray2;
  pca_explained_variance : ndarray2 -> result (list float)
}.

(** [np.isfinite]. *)
Definition isfinite (x : float) : bool :=
  match x with Fin _ => true | _ => false end.

(** A new array object: it lives at an address no live array has. *)
Definition alloc (v : list float) : M loc :=
  fun h => let l := fresh (dom h) in (Ok l, <[l := v]> h).

(** [_pcaLocalDimEst(self, X)] with its first two lines: the decomposition
    of [X], whose spectrum is a new array, then the dispatch. *)
Definition _pcaLocalDimEst_X `{Sklearn} (self : lPCA) (X : ndarray2)
  : M estimate :=
  v <- lift (pca_explained_variance X) ;;
  explained_var <- alloc v ;;
  _pcaLocalDimEst self explained_var.

(** The attributes [fit] sets on the estimator; [None] is an attribute
    that has not been set. *)
Record fitted : Type := {
  dimension_ : option estimate;
  gap_ : option float;
  is_fitted_ : bool
}.

(** How a call of [fit] can end in an exception: one raised by a callee,
    or the [TypeError] of unpacking something that is not a pair. *)
Inductive fit_exn : Type :=
| Exn (e : exn)
| TypeError.

(** [fit(self, X)]: the estimator's attributes before, the heap before;
    the exception if any, the attributes after, the heap after. *)
Definition fit `{Sklearn} (self : lPCA) (o : fitted) (X : ndarray2) (h : heap)
  : option fit_exn * fitted * heap :=
  match check_array X with
  | Raise e => (Some (Exn e), o, h)
  | Ok X =>
      if shape0 X =? 1 then (Some (Exn ValueError), o, h)
      else if shape1 X =? 1 then (Some (Exn ValueError), o, h)
      else if negb (forallb isfinite (cells X)) then
        (Some (Exn ValueError), o, h)
      else
        match _pcaLocalDimEst_X self X h with
        | (Raise e, h') => (Some (Exn e), o, h')
        | (Ok est, h') =>
            if String.eqb (ver self) "ratio" then
              (None,
               {| dimension_ := Some est; gap_ := gap_ o;
                  is_fitted_ := true |}, h')
            else
              match est with
              | DimGap de gap =>
                  (None,
                   {| dimension_ := Some (Dim de); gap_ := Some gap;
                      is_fitted_ := true |}, h')
              | Dim _ | PyNone => (Some TypeError, o, h')
              end
        end
  end.

(** A collaborator for the examples: it accepts every array and answers
    with a prescribed spectrum. *)
Definition answering (v : list float) : Sklearn :=
  {| check_array := fun X => Ok X;
     pca_explained_variance := fun _ => Ok v |}.

Definition ratio_15 : lPCA :=
  {| ver := "ratio"; alphaRatio := Fin 15; alphaFO := Fin (5 # 100);
     alphaFan := Fin 10; betaFan := Fin (8 # 10); PFan := Fin (95 # 100);
     verbose := true |}.

Definition unfitted : fitted :=
  {| dimension_ := None; gap_ := None; is_fitted_ := false |}.

(** A 3 x 5 array of zeros, for the examples. *)
Definition X_ex : ndarray2 :=
  {| shape0 := 3; shape1 := 5; cells := repeat (Fin 0) 15 |}.

(** ** Auxiliary facts *)

Lemma Qltb_lt (a b : Q) : Qltb a b = true <-> (a < b)%Q.
Proof.
  unfold Qltb. rewrite negb_true_iff, <- not_true_iff_false, Qle_bool_iff.
  split; [apply Qnot_le_lt | apply Qlt_not_le].
Qed.

Lemma Qltb_ge (a b : Q) : Qltb a b = false <-> (b <= a)%Q.
Proof.
  unfold Qltb. rewrite negb_false_iff. apply Qle_bool_iff.
Qed.

Lemma len_nonneg {A} (l : list A) : 0 <= len l.
Proof. unfold len. lia. Qed.

Lemma length_map2 {A B C} (f : A -> B -> C) l1 l2 :
  length (map2 f l1 l2) = Nat.min (length l1) (length l2).
Proof.
  revert l2. induction l1 as [|x t IH]; intros [|y t2]; simpl; auto.
Qed.

Lemma gaps_of_cons2 a b t :
  gaps_of (a :: b :: t) = F.div a b :: gaps_of (b :: t).
Proof. reflexivity. Qed.

Lemma length_gaps_of v : length (gaps_of v) = (length v - 1)%nat.
Proof.
  induction v as [|a [|b t] IH]; try reflexivity.
  rewrite gaps_of_cons2. simpl length in *. lia.
Qed.

Lemma len_gaps_of v : (1 <= length v)%nat -> len (gaps_of v) = len v - 1.
Proof. unfold len. rewrite length_gaps_of. lia. Qed.

Lemma nth_error_gaps_of v i x y :
  nth_error v i = Some x -> nth_error v (S i) = Some y ->
  nth_error (gaps_of v) i = Some (F.div x y).
Proof.
  revert i. induction v as [|a [|b t] IH]; intros i Hx Hy.
  - destruct i; discriminate.
  - destruct i as [|[|i]]; discriminate.
  - rewrite gaps_of_cons2. destruct i as [|i].
    + simpl in *. congruence.
    + simpl nth_error at 1. apply IH; assumption.
Qed.

Lemma nth_error_gaps_of_inv v i g :
  nth_error (gaps_of v) i = Some g ->
  exists x y, nth_error v i = Some x /\ nth_error v (S i) = Some y /\
              g = F.div x y.
Proof.
  intros Hg.
  assert (Hi : (i < length (gaps_of v))%nat)
    by (apply nth_error_Some; congruence).
  rewrite length_gaps_of in Hi.
  destruct (nth_error v i) as [x|] eqn:Hx;
    [|apply nth_error_None in Hx; lia].
  destruct (nth_error v (S i)) as [y|] eqn:Hy;
    [|apply nth_error_None in Hy; lia].
  exists x, y. rewrite (nth_error_gaps_of _ _ _ _ Hx Hy) in Hg.
  intuition congruence.
Qed.

(** *** Indexing *)

Lemma getitem_nth {A} (l : list A) (i : Z) x :
  0 <= i -> nth_error l (Z.to_nat i) = Some x -> getitem l i = Ok x.
Proof.
  intros Hi Hx. unfold getitem.
  assert (Hlt : (Z.to_nat i < length l)%nat)
    by (apply nth_error_Some; congruence).
  destruct (Z.ltb_spec i 0); [lia|].
  destruct (Z.leb_spec 0 i); [|lia].
  destruct (Z.ltb_spec i (len l)); [|unfold len in *; lia].
  simpl. rewrite Hx. reflexivity.
Qed.

Lemma getitem_minus_1 {A} (l : list A) x :
  nth_error l (length l - 1) = Some x -> getitem l (-1) = Ok x.
Proof.
  intros Hx. unfold getitem.
  assert (Hlt : (length l - 1 < length l)%nat)
    by (apply nth_error_Some; congruence).
  change (-1 <? 0) with true; cbv iota.
  destruct (Z.leb_spec 0 (len l + -1)); [|unfold len in *; lia].
  destruct (Z.ltb_spec (len l + -1) (len l)); [|lia].
  simpl. replace (Z.to_nat (len l + -1)) with (length l - 1)%nat
    by (unfold len; lia).
  rewrite Hx. reflexivity.
Qed.

Lemma getitem_range {A} (l : list A) i x :
  getitem l i = Ok x -> - len l <= i < len l.
Proof.
  unfold getitem. destruct (Z.ltb_spec i 0).
  - destruct (Z.leb_spec 0 (len l + i)); simpl; [|discriminate].
    intros _. pose proof (len_nonneg l). lia.
  - destruct (Z.leb_spec 0 i); [|lia].
    destruct (Z.ltb_spec i (len l)); simpl; [|discriminate]. lia.
Qed.

Lemma report_gapAt de gaps h :
  gaps <> [] -> 0 <= de ->
  exists g, gapAt gaps de = Some g /\ report de gaps h = (Ok (de, g), h).
Proof.
  intros Hne Hde.
  assert (Hlen : (0 < length gaps)%nat) by (destruct gaps; simpl; [congruence|lia]).
  assert (Hlast : exists x, nth_error gaps (length gaps - 1) = Some x).
  { destruct (nth_error gaps (length gaps - 1)) eqn:E; eauto.
    apply nth_error_None in E. lia. }
  destruct Hlast as [xl Hxl].
  unfold report, gapAt.
  destruct (Z.ltb_spec (de - 1) (len gaps)) as [Hlt|Hge].
  - destruct (Z.leb_spec 1 de) as [H1|H0]; simpl.
    + destruct (nth_error gaps (Z.to_nat (de - 1))) as [x|] eqn:E.
      * exists x. split; [reflexivity|].
        unfold bind, lift, ret. rewrite (getitem_nth _ _ x); auto. lia.
      * apply nth_error_None in E. unfold len in *. lia.
    + exists xl. split; [assumption|].
      replace (de - 1) with (-1) by lia.
      unfold bind, lift, ret. rewrite (getitem_minus_1 _ _ Hxl). reflexivity.
  - rewrite andb_false_r. exists xl. split; [assumption|].
    unfold bind, lift, ret. rewrite (getitem_minus_1 _ _ Hxl). reflexivity.
Qed.

(** *** Counting *)

Lemma py_sum_bool_acc l acc :
  fold_left (fun a (b : bool) => a + (if b then 1 else 0)) l acc =
  acc + py_sum_bool l.
Proof.
  unfold py_sum_bool. revert acc. induction l as [|b t IH]; intros acc; simpl.
  - lia.
  - rewrite IH, (IH (0 + _)). lia.
Qed.

Lemma py_sum_bool_cons b l :
  py_sum_bool (b :: l) = (if b then 1 else 0) + py_sum_bool l.
Proof. unfold py_sum_bool at 1. simpl. rewrite py_sum_bool_acc. lia. Qed.

Lemma py_sum_bool_map_filter {A} (f : A -> bool) (v : list A) :
  py_sum_bool (map f v) = len (List.filter f v).
Proof.
  unfold len. induction v as [|x t IH]; [reflexivity|].
  simpl map. rewrite py_sum_bool_cons, IH. simpl List.filter.
  destruct (f x); simpl length; lia.
Qed.

Lemma py_sum_bool_bounds l : 0 <= py_sum_bool l <= len l.
Proof.
  unfold len. induction l as [|b t IH]; [unfold py_sum_bool; simpl; lia|].
  rewrite py_sum_bool_cons. simpl length. destruct b; lia.
Qed.

(** *** The FO rule *)

Lemma FO_unfold self ev h v0 t :
  h !! ev = Some (v0 :: t) ->
  _FO self ev h =
  report (py_sum_bool
            (map (fun x => F.gtb x (F.mul (alphaFO self) v0)) (v0 :: t)))
         (gaps_of (v0 :: t)) h.
Proof.
  intros Hev. unfold _FO, bind, load, lift. rewrite Hev. reflexivity.
Qed.

Lemma gaps_of_nonempty v : (2 <= length v)%nat -> gaps_of v <> [].
Proof.
  intros Hlen Hnil. apply (f_equal (@length float)) in Hnil.
  rewrite length_gaps_of in Hnil. simpl in Hnil. lia.
Qed.

Lemma FO_result self ev h v0 t :
  h !! ev = Some (v0 :: t) -> t <> [] ->
  exists g,
    gapAt (gaps_of (v0 :: t))
          (count_exceeding (F.mul (alphaFO self) v0) (v0 :: t)) = Some g /\
    _FO self ev h =
    (Ok (count_exceeding (F.mul (alphaFO self) v0) (v0 :: t), g), h).
Proof.
  intros Hev Ht. rewrite (FO_unfold _ _ _ _ _ Hev).
  rewrite py_sum_bool_map_filter. fold (count_exceeding (F.mul (alphaFO self) v0) (v0 :: t)).
  apply report_gapAt.
  - apply gaps_of_nonempty. destruct t; [congruence|simpl; lia].
  - unfold count_exceeding. apply len_nonneg.
Qed.

Lemma count_exceeding_bounds thr v : 0 <= count_exceeding thr v <= len v.
Proof.
  unfold count_exceeding. rewrite <- py_sum_bool_map_filter.
  pose proof (py_sum_bool_bounds (map (fun x => F.gtb x thr) v)) as H.
  unfold len in *. rewrite length_map in H. exact H.
Qed.

Lemma count_exceeding_none thr v :
  Forall (fun x => F.gtb x thr = false) v -> count_exceeding thr v = 0.
Proof.
  unfold count_exceeding, len. induction 1 as [|x t Hx _ IH]; [reflexivity|].
  simpl. rewrite Hx. exact IH.
Qed.

Lemma count_exceeding_head thr x t :
  F.gtb x thr = true -> 1 <= count_exceeding thr (x :: t).
Proof.
  intros Hx. unfold count_exceeding, len. simpl. rewrite Hx. simpl. lia.
Qed.

Lemma fin_ge_trans x y z : fin_ge x y -> fin_ge y z -> fin_ge x z.
Proof.
  destruct x, y, z; simpl; try tauto. intros. lra.
Qed.

Lemma fin_ge_refl_r x y : fin_ge x y -> fin_ge y y.
Proof. destruct x, y; simpl; try tauto. intros _. apply Qle_refl. Qed.

Lemma nonneg_fin_ge x : nonneg x -> fin_ge x x.
Proof. destruct x; simpl; try tauto. intros _. apply Qle_refl. Qed.

Lemma nonincreasing_head_max x t :
  fin_ge x x -> nonincreasing (x :: t) -> Forall (fin_ge x) (x :: t).
Proof.
  intros Hx Hs. constructor; [exact Hx|].
  revert x Hx Hs. induction t as [|y t IH]; intros x Hx Hs; constructor.
  - apply Hs.
  - destruct Hs as [Hxy Hs].
    specialize (IH y (fin_ge_refl_r _ _ Hxy) Hs).
    eapply List.Forall_impl; [|exact IH].
    intros z Hz. eapply fin_ge_trans; eauto.
Qed.

(** With a threshold factor of one, no eigenvalue of a sorted spectrum
    exceeds the threshold. *)
Lemma FO_alpha_one_none a x t :
  (a == 1)%Q -> fin_ge x x -> nonincreasing (x :: t) ->
  Forall (fun y => F.gtb y (F.mul (Fin a) x) = false) (x :: t).
Proof.
  intros Ha Hx Hs. pose proof (nonincreasing_head_max _ _ Hx Hs) as Hmax.
  eapply List.Forall_impl; [|exact Hmax].
  intros y Hy. destruct x as [qx| | |], y as [qy| | |]; simpl in *; try tauto.
  apply Qltb_ge. rewrite Ha. lra.
Qed.

(** *** Smallest indices: [np.where], [np.min] *)

Lemma least_unique (P : nat -> Prop) n m : least P n -> least P m -> n = m.
Proof.
  intros [Hn Hn'] [Hm Hm'].
  destruct (Nat.lt_trichotomy n m) as [Hlt|[Heq|Hgt]]; auto.
  - exfalso. exact (Hm' _ Hlt Hn).
  - exfalso. exact (Hn' _ Hgt Hm).
Qed.

Lemma least_ext (P Q : nat -> Prop) n :
  (forall j, P j <-> Q j) -> least P n -> least Q n.
Proof.
  intros HPQ [Hn Hn']. split; [apply HPQ, Hn|].
  intros j Hj HQ. apply (Hn' j Hj), HPQ, HQ.
Qed.

Lemma In_where_from k l i :
  In i (np.where_from k l) <->
  exists n, i = k + Z.of_nat n /\ nth_error l n = Some true.
Proof.
  revert k. induction l as [|b t IH]; intros k; simpl.
  - split; [tauto|]. intros [[|n] [_ Hn]]; discriminate.
  - assert (Htail : In i (np.where_from (k + 1) t) <->
                    exists n, i = k + Z.of_nat (S n) /\ nth_error t n = Some true).
    { rewrite IH. split; intros [n [Hi Hn]]; exists n; split; auto; lia. }
    destruct b; simpl; rewrite Htail; split.
    + intros [Hi|[n [Hi Hn]]]; [exists 0%nat|exists (S n)]; simpl; split; auto; lia.
    + intros [[|n] [Hi Hn]]; [left; lia|right; exists n; auto].
    + intros [n [Hi Hn]]. exists (S n). auto.
    + intros [[|n] [Hi Hn]]; [discriminate|exists n; auto].
Qed.

Lemma In_where l i :
  In i (np.where_ l) <-> exists n, i = Z.of_nat n /\ nth_error l n = Some true.
Proof. unfold np.where_. rewrite In_where_from. reflexivity. Qed.

Lemma where_nil l :
  np.where_ l = [] -> forall j, nth_error l j <> Some true.
Proof.
  intros Hnil j Hj.
  assert (Hin : In (Z.of_nat j) (np.where_ l)) by (apply In_where; eauto).
  rewrite Hnil in Hin. exact Hin.
Qed.

Lemma fold_min_spec t x :
  (fold_left Z.min t x = x \/ In (fold_left Z.min t x) t) /\
  fold_left Z.min t x <= x /\
  Forall (fun y => fold_left Z.min t x <= y) t.
Proof.
  revert x. induction t as [|y t IH]; intros x; simpl.
  - repeat split; auto. lia.
  - destruct (IH (Z.min x y)) as [Hin [Hle Hall]]. repeat split.
    + destruct Hin as [Heq|Hin]; [|auto].
      rewrite Heq. destruct (Z.min_spec x y) as [[_ E]|[_ E]]; rewrite E; auto.
    + lia.
    + constructor; [lia|exact Hall].
Qed.

Lemma np_min_spec l m :
  np.min l = Ok m -> In m l /\ forall y, In y l -> m <= y.
Proof.
  destruct l as [|x t]; simpl; [discriminate|].
  intros [= <-]. destruct (fold_min_spec t x) as [Hin [Hle Hall]].
  split; [simpl; destruct Hin as [->|Hin]; auto|].
  intros y [<-|Hy]; [exact Hle|].
  rewrite List.Forall_forall in Hall. apply Hall, Hy.
Qed.

Lemma np_min_nonempty l : l <> [] -> exists m, np.min l = Ok m.
Proof. destruct l; [congruence|]. simpl. eauto. Qed.

(** The minimum of the indices selected by two masks is the smallest
    index selected by either. *)
Lemma min_where2_least l1 l2 m :
  np.min (np.where_ l1 ++ np.where_ l2) = Ok m ->
  exists n, m = Z.of_nat n /\
            least (fun j => nth_error l1 j = Some true \/
                            nth_error l2 j = Some true) n.
Proof.
  intros Hm. apply np_min_spec in Hm. destruct Hm as [Hin Hmin].
  assert (Hn : exists n, m = Z.of_nat n /\
                         (nth_error l1 n = Some true \/ nth_error l2 n = Some true)).
  { apply in_app_or in Hin. destruct Hin as [Hin|Hin];
      apply In_where in Hin; destruct Hin as [n [-> Hn]]; eauto. }
  destruct Hn as [n [-> Hn]]. exists n. split; [reflexivity|].
  split; [exact Hn|]. intros j Hj Hsel.
  assert (Hjin : In (Z.of_nat j) (np.where_ l1 ++ np.where_ l2)).
  { apply in_or_app. destruct Hsel; [left|right]; apply In_where; eauto. }
  apply Hmin in Hjin. lia.
Qed.

Lemma min_where_least l m :
  np.min (np.where_ l) = Ok m ->
  exists n, m = Z.of_nat n /\ least (fun j => nth_error l j = Some true) n.
Proof.
  intros Hm. rewrite <- (app_nil_r (np.where_ l)) in Hm.
  change (@nil Z) with (np.where_ []) in Hm.
  apply min_where2_least in Hm. destruct Hm as [n [-> Hl]].
  exists n. split; [reflexivity|]. eapply least_ext; [|exact Hl].
  intros j. split; [|tauto]. intros [H|H]; [exact H|]. destruct j; discriminate.
Qed.

Lemma where_from_head k l r rest :
  np.where_from k l = r :: rest ->
  exists n, r = k + Z.of_nat n /\
            least (fun j => nth_error l j = Some true) n.
Proof.
  revert k. induction l as [|b t IH]; intros k; simpl; [discriminate|].
  destruct b.
  - intros [= <- _]. exists 0%nat. split; [lia|].
    split; [reflexivity|]. intros j Hj. lia.
  - intros Hw. destruct (IH _ Hw) as [n [-> [Hn Hmin]]].
    exists (S n). split; [lia|]. split; [exact Hn|].
    intros [|j] Hj; simpl; [discriminate|]. apply Hmin. lia.
Qed.

(** [a[0]] of a [np.where] result is the smallest selected index. *)
Lemma where_first_least l r :
  getitem (np.where_ l) 0 = Ok r ->
  exists n, r = Z.of_nat n /\ least (fun j => nth_error l j = Some true) n.
Proof.
  destruct (np.where_ l) as [|i rest] eqn:Hw.
  - discriminate.
  - unfold getitem. simpl. intros [= <-].
    apply where_from_head in Hw. destruct Hw as [n [-> Hn]].
    exists n. split; [lia|exact Hn].
Qed.

Lemma where_first_none l e :
  getitem (np.where_ l) 0 = Raise e ->
  e = IndexError /\ forall j, nth_error l j <> Some true.
Proof.
  destruct (np.where_ l) as [|i rest] eqn:Hw.
  - unfold getitem. simpl. intros [= <-]. split; [reflexivity|].
    apply where_nil, Hw.
  - unfold getitem. simpl. discriminate.
Qed.

(** *** Running sums *)

Lemma length_scan acc t : length (np.scan acc t) = length t.
Proof. revert acc. induction t; intros; simpl; auto. Qed.

Lemma length_cumsum v : length (np.cumsum v) = length v.
Proof. destruct v; simpl; [|rewrite length_scan]; reflexivity. Qed.

Lemma nth_error_scan acc t k :
  (k < length t)%nat ->
  nth_error (np.scan acc t) k = Some (fold_left F.add (firstn (S k) t) acc).
Proof.
  revert acc k. induction t as [|x t IH]; intros acc k Hk; simpl in Hk; [lia|].
  destruct k as [|k]; simpl.
  - destruct t; reflexivity.
  - rewrite IH by lia. reflexivity.
Qed.

Lemma nth_error_cumsum v k :
  (k < length v)%nat ->
  nth_error (np.cumsum v) k = Some (prefix_sum v (S k)).
Proof.
  destruct v as [|x t]; simpl; [lia|]. intros Hk.
  unfold prefix_sum. simpl firstn. destruct k as [|k]; simpl.
  - reflexivity.
  - rewrite nth_error_scan by lia. reflexivity.
Qed.

(** *** The ratio rule *)

Lemma mask_nth {A} (f : A -> bool) (l : list A) j :
  nth_error (map f l) j = Some true <->
  exists x, nth_error l j = Some x /\ f x = true.
Proof.
  rewrite nth_error_map. destruct (nth_error l j) as [x|]; simpl.
  - split; [intros [= H]; eauto|intros [y [[= <-] H]]; congruence].
  - split; [discriminate|intros [y [H _]]; discriminate].
Qed.

Lemma ratio_mask alpha v j :
  nth_error (map (fun s => F.gtb s alpha) (np.cumsum v)) j = Some true <->
  (j < length v)%nat /\ F.gtb (prefix_sum v (S j)) alpha = true.
Proof.
  rewrite mask_nth. split.
  - intros [c [Hc Hgt]].
    assert (Hj : (j < length v)%nat).
    { rewrite <- length_cumsum. apply nth_error_Some. congruence. }
    rewrite nth_error_cumsum in Hc by exact Hj. split; congruence.
  - intros [Hj Hgt]. exists (prefix_sum v (S j)).
    split; [apply nth_error_cumsum, Hj|exact Hgt].
Qed.

Lemma ratio_run self ev h v :
  h !! ev = Some v ->
  (exists n,
      least (fun j => (j < length v)%nat /\
                      F.gtb (prefix_sum v (S j)) (alphaRatio self) = true) n /\
      _ratio self ev h = (Ok (Z.of_nat n + 1), h)) \/
  ((forall j, (j < length v)%nat ->
              F.gtb (prefix_sum v (S j)) (alphaRatio self) = false) /\
   _ratio self ev h = (Ok (len v), h)).
Proof.
  intros Hev. unfold _ratio, bind, load, lift, ret. rewrite Hev.
  set (mask := map (fun s => F.gtb s (alphaRatio self)) (np.cumsum v)).
  destruct (np.where_ mask) as [|i rest] eqn:Hw.
  - right. split; [|reflexivity].
    intros j Hj. apply not_true_is_false. intros Hgt.
    apply (where_nil _ Hw j). apply ratio_mask. auto.
  - left. rewrite <- Hw.
    assert (Hne : (len (np.where_ mask) =? 0) = false).
    { rewrite Hw. reflexivity. }
    rewrite Hne.
    destruct (np_min_nonempty (np.where_ mask)) as [m Hm]; [congruence|].
    rewrite Hm. destruct (min_where_least _ _ Hm) as [n [-> Hn]].
    exists n. split; [|reflexivity].
    eapply least_ext; [|exact Hn]. intros j. apply ratio_mask.
Qed.

(** *** The fan rule *)

Lemma fraction_mask p v j :
  nth_error (map (fun c => F.gtb (F.div c (py_sum v)) p) (np.cumsum v)) j
  = Some true <->
  (j < length v)%nat /\ F.gtb (cum_fraction v j) p = true.
Proof.
  rewrite mask_nth. unfold cum_fraction. split.
  - intros [c [Hc Hgt]].
    assert (Hj : (j < length v)%nat).
    { rewrite <- length_cumsum. apply nth_error_Some. congruence. }
    rewrite nth_error_cumsum in Hc by exact Hj. split; congruence.
  - intros [Hj Hgt]. exists (prefix_sum v (S j)).
    split; [apply nth_error_cumsum, Hj|exact Hgt].
Qed.

Lemma slice_from_nat {A} (n : nat) (l : list A) :
  slice_from (Z.of_nat n) l = skipn n l.
Proof.
  unfold slice_from. destruct (Z.ltb_spec (Z.of_nat n) 0); [lia|].
  rewrite Nat2Z.id. reflexivity.
Qed.

Lemma fan_tail_search_least self v r :
  noise_tail_start self v r -> fan_tail_search self v = Ok (Z.of_nat r).
Proof.
  intros Hr. unfold fan_tail_search.
  destruct (getitem _ 0) as [i|e] eqn:Hget.
  - apply where_first_least in Hget. destruct Hget as [n [-> Hn]].
    f_equal. f_equal. unfold noise_tail_start in Hr.
    eapply least_unique; [|exact Hr].
    eapply least_ext; [|exact Hn]. intros j. apply fraction_mask.
  - apply where_first_none in Hget. destruct Hget as [_ Hnone].
    exfalso. destruct Hr as [Hr _]. apply (Hnone r), fraction_mask, Hr.
Qed.

Lemma fan_tail_search_ok self v i :
  fan_tail_search self v = Ok i ->
  exists r, i = Z.of_nat r /\ noise_tail_start self v r.
Proof.
  unfold fan_tail_search. intros Hget.
  apply where_first_least in Hget. destruct Hget as [n [-> Hn]].
  exists n. split; [reflexivity|].
  eapply least_ext; [|exact Hn]. intros j. apply fraction_mask.
Qed.

Lemma fan_cut_mask self v' j :
  nth_error (map (fun g => F.gtb g (alphaFan self)) (gaps_of v')) j = Some true \/
  nth_error (map (fun c => F.gtb (F.div c (py_sum v')) (betaFan self))
                 (np.cumsum v')) j = Some true <->
  fan_stop self v' j.
Proof.
  unfold fan_stop. rewrite mask_nth, fraction_mask. reflexivity.
Qed.

Lemma fan_cut_search_ok self v' m :
  fan_cut_search self v' = Ok m ->
  exists i, m = Z.of_nat i /\ least (fan_stop self v') i.
Proof.
  unfold fan_cut_search. intros Hm.
  apply min_where2_least in Hm. destruct Hm as [n [-> Hn]].
  exists n. split; [reflexivity|].
  eapply least_ext; [|exact Hn]. intros j. apply fan_cut_mask.
Qed.

Lemma fan_cut_search_least self v' i :
  least (fan_stop self v') i -> fan_cut_search self v' = Ok (Z.of_nat i).
Proof.
  intros Hi. destruct (fan_cut_search self v') as [m|e] eqn:Hs.
  - apply fan_cut_search_ok in Hs. destruct Hs as [n [-> Hn]].
    f_equal. f_equal. apply (least_unique _ _ _ Hn Hi).
  - exfalso. unfold fan_cut_search in Hs.
    destruct (np.where_ _ ++ np.where_ _) as [|x t] eqn:Happ;
      [|simpl in Hs; discriminate].
    apply app_eq_nil in Happ. destruct Happ as [H1 H2].
    destruct Hi as [Hi _]. apply fan_cut_mask in Hi.
    destruct Hi as [Hi|Hi];
      [exact (where_nil _ H1 _ Hi)|exact (where_nil _ H2 _ Hi)].
Qed.

Lemma fan_cut_search_none self v' :
  (forall i, ~ fan_stop self v' i) ->
  fan_cut_search self v' = Raise ValueError.
Proof.
  intros Hnone. destruct (fan_cut_search self v') as [m|e] eqn:Hs.
  - apply fan_cut_search_ok in Hs. destruct Hs as [n [_ [Hn _]]].
    exfalso. exact (Hnone n Hn).
  - unfold fan_cut_search in Hs.
    destruct (np.where_ _ ++ np.where_ _); simpl in Hs; congruence.
Qed.

(** [_fan] once the noise tail has been found: the array is overwritten,
    then the cut-off is searched on the new contents. *)
Lemma fan_unfold self ev h v r :
  h !! ev = Some v ->
  fan_tail_search self v = Ok (Z.of_nat r) ->
  _fan self ev h =
  match fan_cut_search self (shifted v r) with
  | Ok m => report (1 + m) (gaps_of (shifted v r)) (<[ev := shifted v r]> h)
  | Raise e => (Raise e, <[ev := shifted v r]> h)
  end.
Proof.
  intros Hev Hr. unfold _fan, bind, load, lift, store.
  rewrite Hev. unfold fan_tail_search in Hr. rewrite Hr.
  rewrite lookup_insert_eq, slice_from_nat.
  fold (shifted v r). fold (fan_cut_search self (shifted v r)).
  destruct (fan_cut_search self (shifted v r)); reflexivity.
Qed.

Lemma fan_no_tail self ev h v e :
  h !! ev = Some v ->
  fan_tail_search self v = Raise e ->
  _fan self ev h = (Raise IndexError, h).
Proof.
  intros Hev Hr. unfold _fan, bind, load, lift.
  rewrite Hev. unfold fan_tail_search in Hr. rewrite Hr.
  apply where_first_none in Hr. destruct Hr as [-> _]. reflexivity.
Qed.

Lemma length_shifted v r : length (shifted v r) = length v.
Proof. unfold shifted. apply length_map. Qed.

(** *** Order facts on floats *)

Ltac float_cases :=
  simpl in *; intros; try congruence; try tauto;
  repeat match goal with
         | H : Qltb _ _ = true |- _ => apply Qltb_lt in H
         | H : Qltb _ _ = false |- _ => apply Qltb_ge in H
         | |- Qltb _ _ = true => apply Qltb_lt
         | |- Qltb _ _ = false => apply Qltb_ge
         end;
  try lra; try (exfalso; lra).

Lemma gtb_irrefl x : F.gtb x x = false.
Proof. destruct x; float_cases. Qed.

(** Nothing smaller than [y] exceeds something larger than [y]. *)
Lemma gtb_below x y z :
  F.gtb x y = true -> F.gtb z y = false -> F.gtb z x = false.
Proof. destruct x, y, z; float_cases. Qed.

(** Something larger than [y] exceeds every number that [y] bounds. *)
Lemma gtb_above x y z :
  F.gtb x y = true -> F.gtb z y = false -> F.isnan z = false ->
  F.gtb x z = true.
Proof. destruct x, y, z; float_cases. Qed.

(** *** [np.argmax] and [np.nanargmax] *)

Lemma argmax_from_spec l : forall pre best bi,
  Forall (fun x => F.isnan x = false) (pre ++ l) ->
  nth_error pre bi = Some best ->
  (forall j x, nth_error pre j = Some x -> F.gtb x best = false) ->
  (forall j x, (j < bi)%nat -> nth_error pre j = Some x ->
               F.gtb best x = true) ->
  exists k,
    np.argmax_from best (Z.of_nat bi) (Z.of_nat (length pre)) l = Z.of_nat k /\
    first_max (pre ++ l) k.
Proof.
  induction l as [|x t IH]; intros pre best bi Hnan Hbi Hmax Hfirst.
  - simpl. exists bi. split; [reflexivity|]. rewrite app_nil_r.
    exists best. repeat split; eauto.
  - assert (Hsplit : pre ++ x :: t = (pre ++ [x]) ++ t)
      by (rewrite <- app_assoc; reflexivity).
    assert (Hlen : Z.of_nat (length pre) + 1 = Z.of_nat (length (pre ++ [x])))
      by (rewrite length_app; simpl; lia).
    assert (Hpre : forall j y, nth_error pre j = Some y -> F.isnan y = false).
    { intros j y Hy. rewrite List.Forall_forall in Hnan. apply Hnan.
      apply in_or_app. left. eapply nth_error_In; eauto. }
    assert (Hlast : forall j y, nth_error (pre ++ [x]) j = Some y ->
                      (j < length pre)%nat /\ nth_error pre j = Some y \/
                      j = length pre /\ y = x).
    { intros j y Hy. destruct (Nat.lt_ge_cases j (length pre)) as [Hj|Hj].
      - rewrite nth_error_app1 in Hy by exact Hj. auto.
      - rewrite nth_error_app2 in Hy by exact Hj.
        destruct (j - length pre)%nat as [|d] eqn:Hd; simpl in Hy.
        + right. split; [lia|congruence].
        + destruct d; discriminate. }
    assert (Hbilt : (bi < length pre)%nat)
      by (apply nth_error_Some; congruence).
    simpl np.argmax_from. rewrite Hlen, Hsplit.
    destruct (F.gtb x best) eqn:Hx.
    + apply (IH (pre ++ [x]) x (length pre)).
      * rewrite <- Hsplit. exact Hnan.
      * rewrite nth_error_app2 by lia. rewrite Nat.sub_diag. reflexivity.
      * intros j y Hy. apply Hlast in Hy. destruct Hy as [[_ Hy]|[_ ->]].
        -- eapply gtb_below; eauto.
        -- apply gtb_irrefl.
      * intros j y Hj Hy. apply Hlast in Hy. destruct Hy as [[_ Hy]|[Hy _]]; [|lia].
        eapply gtb_above; eauto.
    + apply (IH (pre ++ [x]) best bi).
      * rewrite <- Hsplit. exact Hnan.
      * rewrite nth_error_app1 by exact Hbilt. exact Hbi.
      * intros j y Hy. apply Hlast in Hy. destruct Hy as [[_ Hy]|[_ ->]]; eauto.
      * intros j y Hj Hy. apply Hlast in Hy. destruct Hy as [[_ Hy]|[Hy _]]; [|lia].
        eauto.
Qed.

Lemma argmax_spec a :
  a <> [] -> Forall (fun x => F.isnan x = false) a ->
  exists k, np.argmax a = Ok (Z.of_nat k) /\ first_max a k.
Proof.
  destruct a as [|x t]; [congruence|]. intros _ Hnan.
  destruct (argmax_from_spec t [x] x 0%nat) as [k [Hk Hfm]]; auto.
  - intros [|[|j]] y Hy; simpl in Hy; try discriminate.
    injection Hy as <-. apply gtb_irrefl.
  - intros j y Hj. lia.
  - exists k. split; [|exact Hfm]. simpl. f_equal. exact Hk.
Qed.

Lemma first_max_lt a k : first_max a k -> (k < length a)%nat.
Proof. intros [m [Hm _]]. apply nth_error_Some. congruence. Qed.

Lemma nan_to_ninf_no_nan l :
  Forall (fun x => F.isnan x = false) (nan_to_ninf l).
Proof.
  unfold nan_to_ninf. apply List.Forall_forall. intros y Hy.
  apply in_map_iff in Hy. destruct Hy as [x [<- _]]. destruct x; reflexivity.
Qed.


Lemma nanargmax_ok l k :
  np.nanargmax l = Ok k ->
  exists n, k = Z.of_nat n /\ (n < length l)%nat /\
            first_max (nan_to_ninf l) n.
Proof.
  unfold np.nanargmax. fold (nan_to_ninf l).
  destruct (negb (length l =? 0)%nat && forallb F.isnan l); [discriminate|].
  destruct l as [|x t]; [discriminate|]. intros Hk.
  destruct (argmax_spec (nan_to_ninf (x :: t))) as [n [Hn Hfm]].
  - discriminate.
  - apply nan_to_ninf_no_nan.
  - rewrite Hn in Hk. injection Hk as <-. exists n.
    split; [reflexivity|]. split; [|exact Hfm].
    apply first_max_lt in Hfm. unfold nan_to_ninf in Hfm.
    rewrite length_map in Hfm. exact Hfm.
Qed.


(** *** The maxgap rule *)

Lemma maxgap_unfold ev h v :
  h !! ev = Some v ->
  _maxgap ev h =
  match np.nanargmax (gaps_of v) with
  | Ok i => report (i + 1) (gaps_of v) h
  | Raise e => (Raise e, h)
  end.
Proof.
  intros Hev. unfold _maxgap, bind, load, lift. rewrite Hev.
  destruct (np.nanargmax (gaps_of v)); reflexivity.
Qed.

Lemma nanargmax_raises l e : np.nanargmax l = Raise e -> e = ValueError.
Proof.
  unfold np.nanargmax.
  destruct (negb (length l =? 0)%nat && forallb F.isnan l); [congruence|].
  destruct l; simpl; congruence.
Qed.

Lemma nanargmax_all_nan l :
  l <> [] -> forallb F.isnan l = true -> np.nanargmax l = Raise ValueError.
Proof.
  intros Hne Hall. unfold np.nanargmax. rewrite Hall.
  destruct l; [congruence|reflexivity].
Qed.

Lemma nanargmax_some l :
  l <> [] -> forallb F.isnan l = false -> exists k, np.nanargmax l = Ok k.
Proof.
  intros Hne Hall. unfold np.nanargmax. rewrite Hall, andb_false_r.
  destruct l; [congruence|]. simpl. eauto.
Qed.


(** *** Which rules touch the heap *)

Lemma report_heap de gaps h : snd (report de gaps h) = h.
Proof.
  unfold report, bind, lift, ret.
  destruct (de - 1 <? len gaps); destruct (getitem gaps _); reflexivity.
Qed.

Lemma FO_heap self ev h : snd (_FO self ev h) = h.
Proof.
  unfold _FO, bind, load, lift. destruct (h !! ev) as [v|]; [|reflexivity].
  destruct (getitem v 0); [|reflexivity]. apply report_heap.
Qed.

Lemma maxgap_heap ev h : snd (_maxgap ev h) = h.
Proof.
  unfold _maxgap, bind, load, lift. destruct (h !! ev) as [v|]; [|reflexivity].
  destruct (np.nanargmax (gaps_of v)); [|reflexivity]. apply report_heap.
Qed.

Lemma ratio_heap self ev h : snd (_ratio self ev h) = h.
Proof.
  unfold _ratio, bind, load, lift, ret.
  destruct (h !! ev) as [v|]; [|reflexivity].
  destruct (len _ =? 0); [reflexivity|]. destruct (np.min _); reflexivity.
Qed.

(** *** Cumulative fractions of a non-negative array *)

Lemma total_nonneg v : Forall nonneg v -> (0 <= total v)%Q.
Proof.
  induction 1 as [|x t Hx _ IH]; simpl; [lra|].
  destruct x; simpl in *; try tauto. lra.
Qed.

Lemma fold_add_fin t : forall a,
  Forall nonneg t ->
  exists q, fold_left F.add t (Fin a) = Fin q /\ (q == a + total t)%Q.
Proof.
  induction t as [|x t IH]; intros a Hnn; simpl.
  - exists a. split; [reflexivity|lra].
  - inversion Hnn as [|? ? Hx Ht]; subst.
    destruct x as [qx| | |]; simpl in Hx; try tauto.
    destruct (IH (a + qx)%Q Ht) as [q [Hq Heq]].
    exists q. split; [exact Hq|]. simpl. lra.
Qed.

Lemma py_sum_fin v :
  Forall nonneg v -> exists q, py_sum v = Fin q /\ (q == total v)%Q.
Proof.
  intros Hnn. destruct (fold_add_fin v 0 Hnn) as [q [Hq Heq]].
  exists q. split; [exact Hq|lra].
Qed.

Lemma firstn_nonneg k v : Forall nonneg v -> Forall nonneg (firstn k v).
Proof.
  intros Hnn. apply List.Forall_forall. intros x Hx.
  rewrite List.Forall_forall in Hnn. apply Hnn.
  rewrite <- (firstn_skipn k v). apply in_or_app. left. exact Hx.
Qed.

Lemma total_firstn_le k v :
  Forall nonneg v -> (total (firstn k v) <= total v)%Q.
Proof.
  revert k. induction v as [|x t IH]; intros k Hnn.
  - rewrite firstn_nil. simpl. lra.
  - inversion Hnn as [|? ? Hx Ht]; subst. destruct k as [|k]; simpl.
    + pose proof (total_nonneg _ Ht). destruct x; simpl in *; try tauto. lra.
    + specialize (IH k Ht). lra.
Qed.

Lemma prefix_sum_fin v k :
  Forall nonneg v ->
  exists q, prefix_sum v k = Fin q /\ (q == total (firstn k v))%Q.
Proof.
  intros Hnn. pose proof (firstn_nonneg k v Hnn) as Hk.
  unfold prefix_sum. destruct (firstn k v) as [|x t].
  - exists 0%Q. split; [reflexivity|simpl; lra].
  - inversion Hk as [|? ? Hx Ht]; subst.
    destruct x as [qx| | |]; simpl in Hx; try tauto.
    destruct (fold_add_fin t qx Ht) as [q [Hq Heq]].
    exists q. split; [exact Hq|]. simpl. lra.
Qed.

(** No cumulative fraction of a non-negative spectrum exceeds one. *)
Lemma fraction_le_one v i p :
  Forall nonneg v -> (1 <= p)%Q -> F.gtb (cum_fraction v i) (Fin p) = false.
Proof.
  intros Hnn Hp. unfold cum_fraction.
  destruct (prefix_sum_fin v (S i) Hnn) as [q1 [-> H1]].
  destruct (py_sum_fin v Hnn) as [q2 [-> H2]].
  pose proof (total_firstn_le (S i) v Hnn) as Hle.
  pose proof (total_nonneg _ (firstn_nonneg (S i) v Hnn)) as H0.
  simpl. destruct (Qeq_bool q2 0) eqn:Hz.
  - apply Qeq_bool_iff in Hz. unfold F.scale_inf.
    destruct (Qltb 0 q1) eqn:E1; [apply Qltb_lt in E1; lra|].
    destruct (Qltb q1 0) eqn:E2; [apply Qltb_lt in E2; lra|]. reflexivity.
  - apply Qeq_bool_neq in Hz. simpl. apply Qltb_ge.
    assert (Hq2 : (0 < q2)%Q) by lra.
    apply Qle_shift_div_r; [exact Hq2|]. nra.
Qed.

(** With [PFan >= 1] the noise-tail search of [_fan] finds nothing on a
    non-negative spectrum, and the rule raises [IndexError]. *)
Lemma fan_PFan_one_raises self ev h v p :
  h !! ev = Some v -> Forall nonneg v ->
  PFan self = Fin p -> (1 <= p)%Q ->
  _fan self ev h = (Raise IndexError, h).
Proof.
  intros Hev Hnn Hp Hp1.
  destruct (fan_tail_search self v) as [i|e] eqn:Hs.
  - destruct (fan_tail_search_ok _ _ _ Hs) as [r [_ [[_ Hr] _]]].
    rewrite Hp, (fraction_le_one v r p Hnn Hp1) in Hr. discriminate.
  - exact (fan_no_tail self ev h v e Hev Hs).
Qed.

(** ** Properties of the four rules *)

Lemma spectrum_ex : spectrum ex_spectrum.
Proof.
  split.
  - simpl. lia.
  - repeat constructor; simpl; lra.
  - simpl. repeat split; lra.
Qed.

Lemma spectrum_zero : spectrum zero_spectrum.
Proof.
  split.
  - simpl. lia.
  - repeat constructor; simpl; lra.
  - simpl. repeat split; lra.
Qed.

(** C2.  On an array [v0 :: t] of at least two eigenvalues, whatever the
    threshold factor, the FO rule returns the number of eigenvalues that
    strictly exceed [alphaFO * v0], paired with [gapAt] of that number in
    the gaps [v[i]/v[i+1]], and leaves the heap as it was.  On the spectrum
    [10, 9, 1, 0.9, 0.1] with [alphaFO = 0.05] the dimension is 4. *)
Theorem FO_counts_exceeding :
  (forall (self : lPCA) (ev : loc) (h : heap) (v0 : float) (t : list float),
      h !! ev = Some (v0 :: t) -> t <> [] ->
      exists g,
        gapAt (gaps_of (v0 :: t))
              (count_exceeding (F.mul (alphaFO self) v0) (v0 :: t)) = Some g /\
        _FO self ev h =
        (Ok (count_exceeding (F.mul (alphaFO self) v0) (v0 :: t), g), h)) /\
  count_exceeding (F.mul (Fin (5 # 100)) (Fin 10)) ex_spectrum = 4 /\
  _FO (default "FO") 1%positive (one_array ex_spectrum) =
  (Ok (4, F.div (Fin (9 # 10)) (Fin (1 # 10))), one_array ex_spectrum).
Proof.
  split; [|split].
  - intros. apply FO_result; assumption.
  - reflexivity.
  - reflexivity.
Qed.

Lemma FO_counts_exceeding_witness :
  exists g,
    gapAt (gaps_of [Fin 4; Fin 2; Fin 1])
          (count_exceeding (F.mul (Fin (5 # 10)) (Fin 4)) [Fin 4; Fin 2; Fin 1])
    = Some g /\
    _FO {| ver := "FO"; alphaRatio := Fin (5 # 100); alphaFO := Fin (5 # 10);
           alphaFan := Fin 10; betaFan := Fin (8 # 10);
           PFan := Fin (95 # 100); verbose := false |}
        1%positive (one_array [Fin 4; Fin 2; Fin 1]) =
    (Ok (count_exceeding (F.mul (Fin (5 # 10)) (Fin 4)) [Fin 4; Fin 2; Fin 1], g),
     one_array [Fin 4; Fin 2; Fin 1]).
Proof.
  apply (proj1 FO_counts_exceeding
               {| ver := "FO"; alphaRatio := Fin (5 # 100);
                  alphaFO := Fin (5 # 10); alphaFan := Fin 10;
                  betaFan := Fin (8 # 10); PFan := Fin (95 # 100);
                  verbose := false |}
               1%positive (one_array [Fin 4; Fin 2; Fin 1])
               (Fin 4) [Fin 2; Fin 1]).
  - reflexivity.
  - discriminate.
Defined.

(** C8, as the code has it.  With [alphaFO = 1] the FO rule returns
    dimension 0 on every valid spectrum: the comparison is strict, so not
    even the largest eigenvalue exceeds the threshold [1 * v[0]]; the gap
    reported is the last one. *)
Theorem FO_alpha_one_returns_zero :
  forall (self : lPCA) (ev : loc) (h : heap) (v : list float) (a : Q),
    h !! ev = Some v -> spectrum v ->
    alphaFO self = Fin a -> (a == 1)%Q ->
    exists g,
      nth_error (gaps_of v) (length v - 2) = Some g /\
      _FO self ev h = (Ok (0, g), h).
Proof.
  intros self ev h v a Hev [Hlen Hnn Hs] Ha Ha1.
  destruct v as [|v0 [|v1 t]]; simpl in Hlen; try lia.
  destruct (FO_result self ev h v0 (v1 :: t) Hev) as [g [Hg Hrun]];
    [discriminate|].
  rewrite Ha in Hg, Hrun.
  rewrite count_exceeding_none in Hg, Hrun.
  - exists g. split; [|exact Hrun].
    change (gapAt (gaps_of (v0 :: v1 :: t)) 0)
      with (nth_error (gaps_of (v0 :: v1 :: t))
                      (length (gaps_of (v0 :: v1 :: t)) - 1)) in Hg.
    rewrite length_gaps_of in Hg.
    replace (length (v0 :: v1 :: t) - 2)%nat
      with (length (v0 :: v1 :: t) - 1 - 1)%nat by lia. exact Hg.
  - apply FO_alpha_one_none; [exact Ha1| |exact Hs].
    apply nonneg_fin_ge. inversion Hnn; assumption.
  - apply FO_alpha_one_none; [exact Ha1| |exact Hs].
    apply nonneg_fin_ge. inversion Hnn; assumption.
Qed.

Lemma FO_alpha_one_returns_zero_witness :
  exists g,
    nth_error (gaps_of ex_spectrum) (length ex_spectrum - 2) = Some g /\
    _FO fo_one 1%positive (one_array ex_spectrum) =
    (Ok (0, g), one_array ex_spectrum).
Proof.
  apply (FO_alpha_one_returns_zero fo_one 1%positive (one_array ex_spectrum)
                                   ex_spectrum 1).
  - reflexivity.
  - exact spectrum_ex.
  - reflexivity.
  - reflexivity.
Defined.

(** C8 as stated fails: on the valid spectrum [10, 9, 1, 0.9, 0.1] the FO
    rule with [alphaFO = 1] does not return dimension 1. *)
Lemma FO_alpha_one_counterexample :
  spectrum ex_spectrum /\
  fst (_FO fo_one 1%positive (one_array ex_spectrum)) =
  Ok (0, F.div (Fin (9 # 10)) (Fin (1 # 10))) /\
  ~ (forall v, spectrum v ->
               exists g, fst (_FO fo_one 1%positive (one_array v)) = Ok (1, g)).
Proof.
  split; [exact spectrum_ex|]. split; [reflexivity|].
  intros Hall. destruct (Hall _ spectrum_ex) as [g Hg].
  vm_compute in Hg. discriminate.
Qed.





(** What [_maxgap] does on an array of at least two entries. *)
Lemma maxgap_cases (ev : loc) (h : heap) (v : list float) :
  h !! ev = Some v -> (2 <= length v)%nat ->
  (forallb F.isnan (gaps_of v) = false ->
   exists de g, _maxgap ev h = (Ok (de, g), h) /\ 1 <= de <= len v - 1) /\
  (forallb F.isnan (gaps_of v) = true ->
   _maxgap ev h = (Raise ValueError, h)) /\
  (forall de g h', _maxgap ev h = (Ok (de, g), h') -> 1 <= de <= len v - 1).
Proof.
  intros Hev Hlen.
  pose proof (gaps_of_nonempty _ Hlen) as Hne.
  assert (Hok : forall k, np.nanargmax (gaps_of v) = Ok k ->
                  exists g, _maxgap ev h = (Ok (k + 1, g), h) /\
                            1 <= k + 1 <= len v - 1).
  { intros k Hk. rewrite (maxgap_unfold _ _ _ Hev), Hk.
    apply nanargmax_ok in Hk. destruct Hk as [n [-> [Hn _]]].
    destruct (report_gapAt (Z.of_nat n + 1) (gaps_of v) h Hne) as [g [_ Hg]];
      [lia|].
    exists g. split; [exact Hg|].
    rewrite length_gaps_of in Hn. unfold len. lia. }
  split; [|split].
  - intros Hall. destruct (nanargmax_some _ Hne Hall) as [k Hk].
    destruct (Hok _ Hk) as [g [Hrun Hb]]. eauto.
  - intros Hall. rewrite (maxgap_unfold _ _ _ Hev).
    rewrite (nanargmax_all_nan _ Hne Hall). reflexivity.
  - intros de g h' Hrun.
    destruct (np.nanargmax (gaps_of v)) as [k|e] eqn:Hk.
    + destruct (Hok _ eq_refl) as [g' [Hrun' Hb]].
      rewrite Hrun' in Hrun. injection Hrun as <- _ _. exact Hb.
    + rewrite (maxgap_unfold _ _ _ Hev), Hk in Hrun. discriminate.
Qed.

(** C10.  On an array of [d >= 2] entries the maxgap rule returns exactly
    when some gap is not [nan], and its dimension then lies between 1 and
    [d - 1]: the full dimension [d] is never returned.  The FO and ratio
    rules can return [d]: FO does on [1, 1], ratio on [0.01, 0.01]. *)
Theorem maxgap_below_full_dimension :
  (forall (ev : loc) (h : heap) (v : list float),
      h !! ev = Some v -> (2 <= length v)%nat ->
      (forallb F.isnan (gaps_of v) = false ->
       exists de g, _maxgap ev h = (Ok (de, g), h) /\ 1 <= de <= len v - 1) /\
      (forallb F.isnan (gaps_of v) = true ->
       _maxgap ev h = (Raise ValueError, h)) /\
      (forall de g h', _maxgap ev h = (Ok (de, g), h') ->
                       1 <= de <= len v - 1)) /\
  fst (_FO (default "FO") 1%positive (one_array flat_ex)) =
    Ok (len flat_ex, F.div (Fin 1) (Fin 1)) /\
  fst (_ratio (default "ratio") 1%positive (one_array tiny_ex)) =
    Ok (len tiny_ex).
Proof.
  split; [|split; reflexivity].
  intros ev h v Hev Hlen. apply maxgap_cases; assumption.
Qed.

Lemma maxgap_below_full_dimension_witness :
  (forallb F.isnan (gaps_of ex_spectrum) = false ->
   exists de g, _maxgap 1%positive (one_array ex_spectrum)
                = (Ok (de, g), one_array ex_spectrum) /\
                1 <= de <= len ex_spectrum - 1) /\
  (forallb F.isnan (gaps_of ex_spectrum) = true ->
   _maxgap 1%positive (one_array ex_spectrum)
   = (Raise ValueError, one_array ex_spectrum)) /\
  (forall de g h', _maxgap 1%positive (one_array ex_spectrum)
                   = (Ok (de, g), h') -> 1 <= de <= len ex_spectrum - 1).
Proof.
  apply (proj1 maxgap_below_full_dimension 1%positive
               (one_array ex_spectrum) ex_spectrum).
  - reflexivity.
  - simpl. lia.
Defined.

(** C4.  The ratio rule returns the smallest [de >= 1] whose raw prefix
    sum [v[0] + ... + v[de-1]] strictly exceeds [alphaRatio], and the
    length [d] when no prefix sum does; it returns the dimension alone,
    without a gap, and leaves the heap as it was. *)
Theorem ratio_smallest_prefix :
  forall (self : lPCA) (ev : loc) (h : heap) (v : list float),
    h !! ev = Some v ->
    (forall k : nat,
        (1 <= k <= length v)%nat ->
        F.gtb (prefix_sum v k) (alphaRatio self) = true ->
        (forall j, (1 <= j < k)%nat ->
                   F.gtb (prefix_sum v j) (alphaRatio self) = false) ->
        _ratio self ev h = (Ok (Z.of_nat k), h)) /\
    ((forall k, (1 <= k <= length v)%nat ->
                F.gtb (prefix_sum v k) (alphaRatio self) = false) ->
     _ratio self ev h = (Ok (len v), h)) /\
    (ver self = "ratio"%string ->
     exists de, _ratio self ev h = (Ok de, h) /\
                _pcaLocalDimEst self ev h = (Ok (Dim de), h)).
Proof.
  intros self ev h v Hev. split; [|split].
  - intros k Hk Hgt Hbelow.
    destruct (ratio_run self ev h v Hev) as [[n [Hn Hrun]]|[Hnone _]].
    + rewrite Hrun. f_equal. f_equal.
      assert (Hk' : least (fun j => (j < length v)%nat /\
                       F.gtb (prefix_sum v (S j)) (alphaRatio self) = true)
                          (k - 1)).
      { split.
        - replace (S (k - 1)) with k by lia. split; [lia|exact Hgt].
        - intros j Hj [_ Hgj]. rewrite Hbelow in Hgj by lia. discriminate. }
      rewrite (least_unique _ _ _ Hn Hk'). lia.
    + exfalso. specialize (Hnone (k - 1)%nat).
      replace (S (k - 1)) with k in Hnone by lia.
      rewrite Hnone in Hgt by lia. discriminate.
  - intros Hnone.
    destruct (ratio_run self ev h v Hev) as [[n [[[Hn Hgt] _] _]]|[_ Hrun]].
    + rewrite Hnone in Hgt by lia. discriminate.
    + exact Hrun.
  - intros Hver.
    assert (Hde : exists de, _ratio self ev h = (Ok de, h)).
    { destruct (ratio_run self ev h v Hev) as [[n [_ Hrun]]|[_ Hrun]]; eauto. }
    destruct Hde as [de Hde]. exists de. split; [exact Hde|].
    unfold _pcaLocalDimEst. rewrite Hver. simpl.
    unfold bind, ret. rewrite Hde. reflexivity.
Qed.

Lemma ratio_smallest_prefix_witness :
  _ratio (default "ratio") 1%positive (one_array ex_spectrum) =
  (Ok (Z.of_nat 1), one_array ex_spectrum).
Proof.
  apply (proj1 (ratio_smallest_prefix (default "ratio") 1%positive
                                      (one_array ex_spectrum) ex_spectrum
                                      eq_refl) 1%nat).
  - simpl. lia.
  - reflexivity.
  - intros j Hj. lia.
Defined.

(** *** The fan rule on concrete spectra *)

Lemma noise_tail_of_search self v r :
  fan_tail_search self v = Ok (Z.of_nat r) -> noise_tail_start self v r.
Proof.
  intros Hs. apply fan_tail_search_ok in Hs. destruct Hs as [n [Hn Hnts]].
  apply Nat2Z.inj in Hn. subst n. exact Hnts.
Qed.

Lemma least_stop_of_search self v' i :
  fan_cut_search self v' = Ok (Z.of_nat i) -> least (fan_stop self v') i.
Proof.
  intros Hs. apply fan_cut_search_ok in Hs. destruct Hs as [n [Hn Hl]].
  apply Nat2Z.inj in Hn. subst n. exact Hl.
Qed.

Lemma no_stop_of_search self v' e :
  fan_cut_search self v' = Raise e -> forall i, ~ fan_stop self v' i.
Proof.
  intros Hs i Hi. unfold fan_cut_search in Hs.
  destruct (np.where_ _ ++ np.where_ _) as [|x t] eqn:Happ;
    [|simpl in Hs; discriminate].
  apply app_eq_nil in Happ. destruct Happ as [H1 H2].
  apply fan_cut_mask in Hi.
  destruct Hi as [Hi|Hi];
    [exact (where_nil _ H1 _ Hi)|exact (where_nil _ H2 _ Hi)].
Qed.

Lemma fan_stop_lt self v' i : fan_stop self v' i -> (i < length v')%nat.
Proof.
  intros [[g [Hg _]]|[Hi _]]; [|exact Hi].
  assert (H : (i < length (gaps_of v'))%nat)
    by (apply nth_error_Some; congruence).
  rewrite length_gaps_of in H. lia.
Qed.

Lemma report_dim de gaps h de' g h' :
  report de gaps h = (Ok (de', g), h') -> de' = de.
Proof.
  unfold report, bind, lift, ret.
  destruct (de - 1 <? len gaps); destruct (getitem gaps _); congruence.
Qed.

(** What [_fan] does once the noise tail starts at [r]. *)
Lemma fan_cases (self : lPCA) (ev : loc) (h : heap) (v : list float) (r : nat) :
  h !! ev = Some v -> (2 <= length v)%nat ->
  noise_tail_start self v r ->
  (forall i, least (fan_stop self (shifted v r)) i ->
     exists g,
       gapAt (gaps_of (shifted v r)) (1 + Z.of_nat i) = Some g /\
       _fan self ev h = (Ok (1 + Z.of_nat i, g), <[ev := shifted v r]> h)) /\
  ((forall i, ~ fan_stop self (shifted v r) i) ->
   _fan self ev h = (Raise ValueError, <[ev := shifted v r]> h)).
Proof.
  intros Hev Hlen Hr.
  pose proof (fan_unfold self ev h v r Hev (fan_tail_search_least _ _ _ Hr))
    as Hrun.
  split.
  - intros i Hi. rewrite Hrun, (fan_cut_search_least _ _ _ Hi).
    apply report_gapAt; [|lia].
    apply gaps_of_nonempty. rewrite length_shifted. exact Hlen.
  - intros Hnone. rewrite Hrun, (fan_cut_search_none _ _ Hnone). reflexivity.
Qed.

(** C6, as the code has it.  When the noise tail starts at [r] and neither
    stopping condition holds at any index of the shifted spectrum, the fan
    rule raises the [ValueError] of a minimum over an empty selection and
    returns no estimate. *)
Theorem fan_no_cutoff_raises :
  forall (self : lPCA) (ev : loc) (h : heap) (v : list float) (r : nat),
    h !! ev = Some v ->
    noise_tail_start self v r ->
    (forall i, ~ fan_stop self (shifted v r) i) ->
    _fan self ev h = (Raise ValueError, <[ev := shifted v r]> h).
Proof.
  intros self ev h v r Hev Hr Hnone.
  rewrite (fan_unfold self ev h v r Hev (fan_tail_search_least _ _ _ Hr)).
  rewrite (fan_cut_search_none _ _ Hnone). reflexivity.
Qed.

Lemma fan_no_cutoff_raises_witness :
  _fan (default "fan") 1%positive (one_array flat_ex) =
  (Raise ValueError, <[1%positive := shifted flat_ex 1]> (one_array flat_ex)).
Proof.
  apply (fan_no_cutoff_raises (default "fan") 1%positive (one_array flat_ex)
                              flat_ex 1%nat).
  - reflexivity.
  - apply noise_tail_of_search. reflexivity.
  - apply (no_stop_of_search _ _ ValueError). reflexivity.
Defined.

Lemma spectrum_steep : spectrum steep_ex.
Proof.
  split.
  - simpl. lia.
  - repeat constructor; simpl; lra.
  - simpl. repeat split; lra.
Qed.

(** C6 as stated fails on its example: with [PFan = 0.95],
    [alphaFan = 1e9], [betaFan = 1.0] and three features left from the
    noise-tail index on, the fan rule returns dimension 2 on
    [100, 4, 1, 1]: the shifted cumulative fraction is [100/98] at
    index 1. *)
Lemma fan_unreachable_thresholds_counterexample :
  spectrum steep_ex /\
  noise_tail_start fan_unreachable steep_ex 1 /\
  length (skipn 1 steep_ex) = 3%nat /\
  array_equal (shifted steep_ex 1) [Fin 98; Fin 2; Fin (-1); Fin (-1)] = true /\
  F.gtb (cum_fraction (shifted steep_ex 1) 1) (betaFan fan_unreachable) = true /\
  (exists g, fst (_fan fan_unreachable 1%positive (one_array steep_ex))
             = Ok (2, g) /\ float_eqb g (Fin (-2)) = true) /\
  ~ (forall v r, spectrum v -> noise_tail_start fan_unreachable v r ->
                 (1 < length (skipn r v))%nat ->
                 exists e, fst (_fan fan_unreachable 1%positive (one_array v))
                           = Raise e).
Proof.
  assert (Hr : noise_tail_start fan_unreachable steep_ex 1)
    by (apply noise_tail_of_search; reflexivity).
  split; [exact spectrum_steep|]. split; [exact Hr|].
  split; [reflexivity|]. split; [reflexivity|]. split; [reflexivity|].
  split.
  - eexists. split; reflexivity.
  - intros Hall. destruct (Hall steep_ex 1%nat spectrum_steep Hr) as [e He].
    + simpl. lia.
    + vm_compute in He. discriminate.
Qed.

Lemma fan_heap self ev h v r :
  h !! ev = Some v -> noise_tail_start self v r ->
  snd (_fan self ev h) = <[ev := shifted v r]> h.
Proof.
  intros Hev Hr.
  rewrite (fan_unfold self ev h v r Hev (fan_tail_search_least _ _ _ Hr)).
  destruct (fan_cut_search self (shifted v r)); [apply report_heap|reflexivity].
Qed.

(** [_fan] touches no array but the one it is given. *)
Lemma fan_frame self ev ev' h :
  ev <> ev' -> (snd (_fan self ev h) : heap) !! ev' = h !! ev'.
Proof.
  intros Hne. destruct (h !! ev) as [v|] eqn:Hev.
  - destruct (fan_tail_search self v) as [i|e] eqn:Hs.
    + destruct (fan_tail_search_ok _ _ _ Hs) as [r [-> Hr]].
      rewrite (fan_heap self ev h v r Hev Hr).
      apply lookup_insert_ne. exact Hne.
    + rewrite (fan_no_tail self ev h v e Hev Hs). reflexivity.
  - unfold _fan, bind, load. rewrite Hev. reflexivity.
Qed.

Lemma fan_dimension_range self ev h v de g h' :
  h !! ev = Some v -> _fan self ev h = (Ok (de, g), h') -> 1 <= de <= len v.
Proof.
  intros Hev Hrun.
  destruct (fan_tail_search self v) as [i|e] eqn:Hs.
  - destruct (fan_tail_search_ok _ _ _ Hs) as [r [-> Hr]].
    rewrite (fan_unfold self ev h v r Hev Hs) in Hrun.
    destruct (fan_cut_search self (shifted v r)) as [m|e] eqn:Hc;
      [|discriminate].
    apply fan_cut_search_ok in Hc. destruct Hc as [n [-> [Hn _]]].
    apply report_dim in Hrun. apply fan_stop_lt in Hn.
    rewrite length_shifted in Hn. unfold len. lia.
  - rewrite (fan_no_tail self ev h v e Hev Hs) in Hrun. discriminate.
Qed.

Lemma spectrum_flat : spectrum flat_ex.
Proof.
  split.
  - simpl. lia.
  - repeat constructor; simpl; lra.
  - simpl. repeat split; lra.
Qed.

(** C1 as stated fails: on the valid all-zero spectrum [0, 0] the FO rule
    returns dimension 0 and the maxgap and fan rules raise; on the valid
    all-equal spectrum [1, 1] the fan rule raises. *)
Lemma zero_spectrum_counterexample :
  spectrum zero_spectrum /\
  fst (_FO (default "FO") 1%positive (one_array zero_spectrum)) = Ok (0, NaN) /\
  fst (_maxgap 1%positive (one_array zero_spectrum)) = Raise ValueError /\
  ~ (forall v, spectrum v ->
               exists de g,
                 fst (_FO (default "FO") 1%positive (one_array v)) = Ok (de, g) /\
                 1 <= de <= len v) /\
  fst (_fan (default "fan") 1%positive (one_array zero_spectrum))
  = Raise IndexError /\
  spectrum flat_ex /\
  fst (_fan (default "fan") 1%positive (one_array flat_ex)) = Raise ValueError.
Proof.
  split; [exact spectrum_zero|]. split; [reflexivity|]. split; [reflexivity|].
  split.
  - intros Hall. destruct (Hall _ spectrum_zero) as [de [g [Hrun Hde]]].
    vm_compute in Hrun. injection Hrun as <- _. lia.
  - split; [reflexivity|]. split; [exact spectrum_flat|reflexivity].
Qed.

(** C7 fails on the code: after [_fan] has run on the array
    [10, 9, 1, 1, 1] with the default parameters, that same array holds
    [9, 8, 0, 0, 0]. *)
Theorem fan_overwrites_spectrum :
  exists v',
    (snd (_fan (default "fan") 1%positive (one_array fan_ex)) : heap)
      !! 1%positive = Some v' /\
    array_equal v' [Fin 9; Fin 8; Fin 0; Fin 0; Fin 0] = true /\
    array_equal v' fan_ex = false.
Proof.
  eexists. split; [reflexivity|]. split; reflexivity.
Qed.

(** C9 fails on the code for the fan rule: the three other rules leave
    the heap as it was, so a second call repeats the first; two calls of
    [_fan] in succession on the array [10, 9, 1, 1, 1] return dimension 2
    with gap [+inf], then dimension 1 with gap [7/6]. *)
Theorem fan_second_call_differs :
  (forall self ev h, _FO self ev (snd (_FO self ev h)) = _FO self ev h) /\
  (forall ev h, _maxgap ev (snd (_maxgap ev h)) = _maxgap ev h) /\
  (forall self ev h,
      _ratio self ev (snd (_ratio self ev h)) = _ratio self ev h) /\
  (fst (_fan (default "fan") 1%positive (one_array fan_ex)) = Ok (2, PInf) /\
   (exists g,
       fst (_fan (default "fan") 1%positive
                 (snd (_fan (default "fan") 1%positive (one_array fan_ex))))
       = Ok (1, g) /\ float_eqb g (Fin (7 # 6)) = true) /\
   fst (_fan (default "fan") 1%positive
             (snd (_fan (default "fan") 1%positive (one_array fan_ex))))
   <> fst (_fan (default "fan") 1%positive (one_array fan_ex))).
Proof.
  split; [|split; [|split]].
  - intros. rewrite FO_heap. reflexivity.
  - intros. rewrite maxgap_heap. reflexivity.
  - intros. rewrite ratio_heap. reflexivity.
  - split; [reflexivity|]. split.
    + eexists. split; reflexivity.
    + intros H. vm_compute in H. discriminate.
Qed.

(** ** Further properties of the rules *)

(** *** Threshold monotonicity *)

Lemma count_exceeding_antitone thr1 thr2 v :
  (forall x, In x v -> F.gtb x thr2 = true -> F.gtb x thr1 = true) ->
  count_exceeding thr2 v <= count_exceeding thr1 v.
Proof.
  unfold count_exceeding, len. induction v as [|x t IH]; intros Himp; [simpl; lia|].
  assert (IHt : (Z.of_nat (length (List.filter (fun x => F.gtb x thr2) t)) <=
                 Z.of_nat (length (List.filter (fun x => F.gtb x thr1) t))))
    by (apply IH; intros y Hy; apply Himp; right; exact Hy).
  simpl. destruct (F.gtb x thr2) eqn:E2.
  - rewrite (Himp x (or_introl eq_refl) E2). simpl length. lia.
  - destruct (F.gtb x thr1); simpl length; lia.
Qed.

Lemma gtb_threshold_mono s a1 a2 :
  (a1 <= a2)%Q -> F.gtb s (Fin a2) = true -> F.gtb s (Fin a1) = true.
Proof. intros Ha. destruct s; float_cases. Qed.

(** X1.  The FO dimension does not grow with the threshold factor: on a
    finite non-negative array of at least two eigenvalues, a larger
    [alphaFO] gives a dimension that is smaller or the same. *)
Theorem FO_antitone_in_alphaFO :
  forall (s1 s2 : lPCA) (ev : loc) (h : heap) (v : list float) (a1 a2 : Q),
    h !! ev = Some v -> (2 <= length v)%nat -> Forall nonneg v ->
    alphaFO s1 = Fin a1 -> alphaFO s2 = Fin a2 -> (a1 <= a2)%Q ->
    exists de1 g1 de2 g2,
      _FO s1 ev h = (Ok (de1, g1), h) /\
      _FO s2 ev h = (Ok (de2, g2), h) /\
      de2 <= de1.
Proof.
  intros s1 s2 ev h v a1 a2 Hev Hlen Hnn H1 H2 Ha.
  destruct v as [|v0 [|v1 t]]; simpl in Hlen; try lia.
  destruct (FO_result s1 ev h v0 (v1 :: t) Hev) as [g1 [_ Hr1]]; [discriminate|].
  destruct (FO_result s2 ev h v0 (v1 :: t) Hev) as [g2 [_ Hr2]]; [discriminate|].
  do 4 eexists. split; [exact Hr1|]. split; [exact Hr2|].
  rewrite H1, H2. apply count_exceeding_antitone.
  inversion Hnn as [|? ? H0 _]; subst.
  destruct v0 as [q0| | |]; simpl in H0; try tauto.
  intros x _. simpl. apply gtb_threshold_mono. nra.
Qed.

Lemma FO_antitone_in_alphaFO_witness :
  exists de1 g1 de2 g2,
    _FO (default "FO") 1%positive (one_array ex_spectrum) = (Ok (de1, g1), one_array ex_spectrum) /\
    _FO fo_one 1%positive (one_array ex_spectrum) = (Ok (de2, g2), one_array ex_spectrum) /\
    de2 <= de1.
Proof.
  apply (FO_antitone_in_alphaFO (default "FO") fo_one 1%positive
           (one_array ex_spectrum) ex_spectrum (5 # 100) 1).
  - reflexivity.
  - simpl. lia.
  - exact (sp_nonneg _ spectrum_ex).
  - reflexivity.
  - reflexivity.
  - unfold Qle. simpl. lia.
Defined.

(** X2.  The ratio dimension does not shrink with the threshold: on any
    array, a larger [alphaRatio] gives a dimension that is larger or the
    same. *)
Theorem ratio_monotone_in_alphaRatio :
  forall (s1 s2 : lPCA) (ev : loc) (h : heap) (v : list float) (a1 a2 : Q),
    h !! ev = Some v ->
    alphaRatio s1 = Fin a1 -> alphaRatio s2 = Fin a2 -> (a1 <= a2)%Q ->
    exists de1 de2,
      _ratio s1 ev h = (Ok de1, h) /\ _ratio s2 ev h = (Ok de2, h) /\
      de1 <= de2.
Proof.
  intros s1 s2 ev h v a1 a2 Hev H1 H2 Ha.
  destruct (ratio_run s1 ev h v Hev) as [[n1 [[[Hn1 Hg1] Hmin1] Hr1]]|[Hnone1 Hr1]];
    destruct (ratio_run s2 ev h v Hev) as [[n2 [[[Hn2 Hg2] Hmin2] Hr2]]|[Hnone2 Hr2]];
    do 2 eexists; (split; [exact Hr1|]); (split; [exact Hr2|]).
  - destruct (Nat.le_gt_cases n1 n2) as [Hle|Hgt]; [lia|]. exfalso.
    apply (Hmin1 n2 Hgt). split; [exact Hn2|].
    rewrite H1. rewrite H2 in Hg2. eapply gtb_threshold_mono; eauto.
  - unfold len. lia.
  - exfalso. specialize (Hnone1 n2 Hn2).
    rewrite H1 in Hnone1. rewrite H2 in Hg2.
    rewrite (gtb_threshold_mono _ _ _ Ha Hg2) in Hnone1. discriminate.
  - lia.
Qed.

Lemma ratio_monotone_in_alphaRatio_witness :
  exists de1 de2,
    _ratio (default "ratio") 1%positive (one_array ex_spectrum)
    = (Ok de1, one_array ex_spectrum) /\
    _ratio ratio_15 1%positive (one_array ex_spectrum)
    = (Ok de2, one_array ex_spectrum) /\
    de1 <= de2.
Proof.
  apply (ratio_monotone_in_alphaRatio (default "ratio") ratio_15 1%positive
           (one_array ex_spectrum) ex_spectrum (5 # 100) 15).
  - reflexivity.
  - reflexivity.
  - reflexivity.
  - unfold Qle. simpl. lia.
Defined.

(** *** The FO rule on a sorted spectrum *)

Lemma count_exceeding_cons thr x t :
  count_exceeding thr (x :: t) =
  (if F.gtb x thr then 1 else 0) + count_exceeding thr t.
Proof.
  unfold count_exceeding, len. simpl. destruct (F.gtb x thr); simpl length; lia.
Qed.

Lemma nonincreasing_tail x t : nonincreasing (x :: t) -> nonincreasing t.
Proof. destruct t; simpl; tauto. Qed.

Lemma fin_ge_refl_l x y : fin_ge x y -> fin_ge x x.
Proof. destruct x, y; simpl; try tauto. intros _. apply Qle_refl. Qed.

Lemma nonincreasing_below_head x t thr :
  nonincreasing (x :: t) -> F.gtb x thr = false ->
  Forall (fun y => F.gtb y thr = false) t.
Proof.
  intros Hs Hx. destruct t as [|y t']; [constructor|].
  assert (Hxx : fin_ge x x) by (destruct Hs as [Hxy _]; eapply fin_ge_refl_l; eauto).
  pose proof (nonincreasing_head_max _ _ Hxx Hs) as Hmax.
  inversion Hmax as [|? ? _ Ht]; subst.
  eapply List.Forall_impl; [|exact Ht].
  intros z Hz. destruct x, z, thr; float_cases.
Qed.

(** In a sorted array the entries above a threshold are the leading ones. *)
Lemma sorted_exceeding_prefix thr v :
  nonincreasing v ->
  forall i x, nth_error v i = Some x ->
              (F.gtb x thr = true <-> Z.of_nat i < count_exceeding thr v).
Proof.
  induction v as [|y t IH]; intros Hs i x Hx; [destruct i; discriminate|].
  rewrite count_exceeding_cons.
  pose proof (count_exceeding_bounds thr t) as Hb.
  destruct (F.gtb y thr) eqn:Hy.
  - destruct i as [|j]; simpl in Hx.
    + injection Hx as <-. rewrite Hy. split; [lia|reflexivity].
    + rewrite (IH (nonincreasing_tail _ _ Hs) j x Hx). lia.
  - pose proof (nonincreasing_below_head _ _ _ Hs Hy) as Hall.
    rewrite (count_exceeding_none _ _ Hall).
    destruct i as [|j]; simpl in Hx.
    + injection Hx as <-. rewrite Hy. split; [discriminate|lia].
    + rewrite List.Forall_forall in Hall.
      rewrite (Hall x (nth_error_In _ _ Hx)). split; [discriminate|lia].
Qed.

(** X3.  On a valid spectrum the eigenvalues the FO rule counts are the
    leading ones: [v[i]] exceeds the threshold exactly when [i] is below
    the returned dimension.  When that dimension is neither 0 nor [d],
    the reported gap is the ratio across the cut and strictly exceeds 1. *)
Theorem FO_counts_leading_eigenvalues :
  forall (self : lPCA) (ev : loc) (h : heap) (v0 : float) (t : list float),
    h !! ev = Some (v0 :: t) -> spectrum (v0 :: t) ->
    exists de g,
      _FO self ev h = (Ok (de, g), h) /\
      (forall i x, nth_error (v0 :: t) i = Some x ->
                   (F.gtb x (F.mul (alphaFO self) v0) = true <-> Z.of_nat i < de)) /\
      (1 <= de < len (v0 :: t) ->
       exists x y, nth_error (v0 :: t) (Z.to_nat (de - 1)) = Some x /\
                   nth_error (v0 :: t) (Z.to_nat de) = Some y /\
                   g = F.div x y /\ F.gtb g (Fin 1) = true).
Proof.
  intros self ev h v0 t Hev [Hlen Hnn Hs].
  assert (Ht : t <> []) by (destruct t; simpl in Hlen; [lia|discriminate]).
  destruct (FO_result self ev h v0 t Hev Ht) as [g [Hg Hrun]].
  set (thr := F.mul (alphaFO self) v0) in *.
  set (de := count_exceeding thr (v0 :: t)) in *.
  exists de, g. split; [exact Hrun|].
  pose proof (sorted_exceeding_prefix thr (v0 :: t) Hs) as Hprefix.
  split; [exact Hprefix|].
  intros Hde. unfold gapAt in Hg.
  rewrite (len_gaps_of (v0 :: t)) in Hg by (simpl; lia).
  destruct (Z.leb_spec 1 de); [|lia].
  destruct (Z.ltb_spec (de - 1) (len (v0 :: t) - 1)); [|lia].
  simpl andb in Hg. cbv iota in Hg.
  apply nth_error_gaps_of_inv in Hg. destruct Hg as [x [y [Hx [Hy ->]]]].
  replace (S (Z.to_nat (de - 1))) with (Z.to_nat de) in Hy by lia.
  exists x, y. repeat split; try assumption.
  assert (Hxt : F.gtb x thr = true) by (apply (Hprefix _ _ Hx); lia).
  assert (Hyt : F.gtb y thr = false).
  { apply not_true_is_false. intros Hc. apply (Hprefix _ _ Hy) in Hc. lia. }
  rewrite List.Forall_forall in Hnn.
  pose proof (Hnn _ (nth_error_In _ _ Hx)) as Hxn.
  pose proof (Hnn _ (nth_error_In _ _ Hy)) as Hyn.
  destruct x as [p| | |], y as [q| | |]; simpl in Hxn, Hyn; try tauto.
  assert (Hpq : (q < p)%Q) by (destruct thr; float_cases).
  simpl. destruct (Qeq_bool q 0) eqn:Hz.
  - apply Qeq_bool_iff in Hz. unfold F.scale_inf.
    assert (E : Qltb 0 p = true) by (apply Qltb_lt; lra).
    rewrite E. reflexivity.
  - apply Qeq_bool_neq in Hz. simpl. apply Qltb_lt.
    apply Qlt_shift_div_l; lra.
Qed.

Lemma FO_counts_leading_eigenvalues_witness :
  exists de g,
    _FO (default "FO") 1%positive (one_array ex_spectrum)
    = (Ok (de, g), one_array ex_spectrum) /\
    (forall i x, nth_error ex_spectrum i = Some x ->
                 (F.gtb x (F.mul (alphaFO (default "FO")) (Fin 10)) = true
                  <-> Z.of_nat i < de)) /\
    (1 <= de < len ex_spectrum ->
     exists x y, nth_error ex_spectrum (Z.to_nat (de - 1)) = Some x /\
                 nth_error ex_spectrum (Z.to_nat de) = Some y /\
                 g = F.div x y /\ F.gtb g (Fin 1) = true).
Proof.
  apply (FO_counts_leading_eigenvalues (default "FO") 1%positive
           (one_array ex_spectrum) (Fin 10)
           [Fin 9; Fin 1; Fin (9 # 10); Fin (1 # 10)]).
  - reflexivity.
  - exact spectrum_ex.
Defined.

(** *** Arrays of fewer than two eigenvalues *)

Lemma getitem_nil {A} (i : Z) : getitem (@nil A) i = Raise IndexError.
Proof.
  unfold getitem. set (k := if i <? 0 then len (@nil A) + i else i).
  destruct (Z.leb_spec 0 k); destruct (Z.ltb_spec k (len (@nil A)));
    simpl; try reflexivity.
  unfold len in *. simpl in *. lia.
Qed.

Lemma report_no_gaps de h : report de [] h = (Raise IndexError, h).
Proof.
  unfold report, bind, lift. destruct (de - 1 <? len []); rewrite getitem_nil; reflexivity.
Qed.

Lemma gaps_of_short v : (length v <= 1)%nat -> gaps_of v = [].
Proof. destruct v as [|x [|y t]]; simpl; try reflexivity. lia. Qed.

(** On a one-element array the shifted spectrum offers no cut-off. *)
Lemma singleton_no_stop self x i : ~ fan_stop self (shifted [x] 0) i.
Proof.
  intros [[g [Hg _]]|[Hi Hgt]].
  - unfold shifted in Hg. simpl in Hg. destruct i; discriminate.
  - unfold shifted in Hi, Hgt. simpl length in Hi.
    assert (i = 0%nat) by lia. subst i.
    unfold cum_fraction, prefix_sum, py_sum, np.mean, np.sum, F.of_Z, len in Hgt.
    simpl in Hgt.
    destruct x as [q| | |]; simpl in Hgt; try discriminate.
    set (z := (q + - (q / inject_Z (Z.of_nat 1)))%Q) in Hgt.
    assert (Hz : (z == 0)%Q) by (unfold z; simpl; field).
    destruct (Qeq_bool (0 + z) 0) eqn:E0.
    + unfold F.scale_inf in Hgt.
      destruct (Qltb 0 z) eqn:E1; [apply Qltb_lt in E1; lra|].
      destruct (Qltb z 0) eqn:E2; [apply Qltb_lt in E2; lra|].
      simpl in Hgt. discriminate.
    + apply Qeq_bool_neq in E0. apply E0. lra.
Qed.

(** X6.  What the rules do on an array of fewer than two eigenvalues: FO
    raises [IndexError], maxgap raises [ValueError], fan raises, each
    without returning an estimate; ratio alone answers, as it does on
    every array, with 0 on the empty array and a dimension between 1 and
    the length otherwise. *)
Theorem rules_on_short_arrays :
  forall (self : lPCA) (ev : loc) (h : heap) (v : list float),
    h !! ev = Some v ->
    ((length v <= 1)%nat ->
     _FO self ev h = (Raise IndexError, h) /\
     _maxgap ev h = (Raise ValueError, h) /\
     exists e, fst (_fan self ev h) = Raise e) /\
    (exists de, _ratio self ev h = (Ok de, h) /\
                (v = [] -> de = 0) /\ (v <> [] -> 1 <= de <= len v)).
Proof.
  intros self ev h v Hev. split.
  - intros Hlen. split; [|split].
    + destruct v as [|x t].
      * unfold _FO, bind, load, lift. rewrite Hev. reflexivity.
      * rewrite (FO_unfold _ _ _ _ _ Hev), (gaps_of_short _ Hlen).
        apply report_no_gaps.
    + rewrite (maxgap_unfold _ _ _ Hev), (gaps_of_short _ Hlen). reflexivity.
    + destruct (fan_tail_search self v) as [i|e] eqn:Hs.
      * destruct (fan_tail_search_ok _ _ _ Hs) as [r [-> Hr]].
        rewrite (fan_unfold self ev h v r Hev Hs).
        destruct Hr as [[Hr _] _].
        destruct v as [|x [|y t]]; simpl in Hlen, Hr; try lia.
        assert (r = 0%nat) by lia. subst r.
        rewrite fan_cut_search_none; [eauto|]. apply singleton_no_stop.
      * rewrite (fan_no_tail self ev h v e Hev Hs). eauto.
  - destruct (ratio_run self ev h v Hev) as [[n [[[Hn _] _] Hrun]]|[_ Hrun]];
      eexists; (split; [exact Hrun|]); split.
    + intros ->. simpl in Hn. lia.
    + intros _. unfold len. lia.
    + intros ->. reflexivity.
    + intros Hne. unfold len. destruct v; [congruence|simpl; lia].
Qed.

Lemma rules_on_short_arrays_witness :
  ((length [Fin 3] <= 1)%nat ->
   _FO (default "FO") 1%positive (one_array [Fin 3])
   = (Raise IndexError, one_array [Fin 3]) /\
   _maxgap 1%positive (one_array [Fin 3])
   = (Raise ValueError, one_array [Fin 3]) /\
   exists e, fst (_fan (default "FO") 1%positive (one_array [Fin 3])) = Raise e) /\
  (exists de, _ratio (default "FO") 1%positive (one_array [Fin 3])
              = (Ok de, one_array [Fin 3]) /\
              ([Fin 3] = [] -> de = 0) /\ ([Fin 3] <> [] -> 1 <= de <= len [Fin 3])).
Proof.
  apply (rules_on_short_arrays (default "FO") 1%positive (one_array [Fin 3])
                               [Fin 3]).
  reflexivity.
Defined.

(** *** The maxgap rule on a positive spectrum *)

Lemma gaps_of_positive v :
  Forall positive_entry v -> Forall positive_entry (gaps_of v).
Proof.
  induction v as [|x [|y t] IH]; intros Hp; try constructor.
  - inversion Hp as [|? ? Hx Ht]; subst. inversion Ht as [|? ? Hy _]; subst.
    destruct x as [a| | |], y as [b| | |]; simpl in Hx, Hy; try tauto.
    simpl. destruct (Qeq_bool b 0) eqn:Hb.
    + apply Qeq_bool_iff in Hb. lra.
    + simpl. apply Qlt_shift_div_l; lra.
  - apply IH. inversion Hp; assumption.
Qed.

Lemma nan_to_ninf_id l :
  Forall positive_entry l -> nan_to_ninf l = l.
Proof.
  unfold nan_to_ninf. induction 1 as [|x t Hx _ IH]; [reflexivity|].
  simpl. rewrite IH. destruct x; simpl in Hx; try tauto; reflexivity.
Qed.

Lemma nonincreasing_adjacent v i x y :
  nonincreasing v -> nth_error v i = Some x -> nth_error v (S i) = Some y ->
  fin_ge x y.
Proof.
  revert i. induction v as [|a t IH]; intros i Hs Hx Hy; [destruct i; discriminate|].
  destruct i as [|j].
  - simpl in Hx. injection Hx as <-. destruct t as [|b t']; [discriminate|].
    simpl in Hy. injection Hy as <-. apply Hs.
  - simpl in Hx, Hy. apply (IH j (nonincreasing_tail _ _ Hs) Hx Hy).
Qed.

(** X7.  On an array of two or more strictly positive eigenvalues the
    maxgap rule always returns, with a dimension between 1 and [d - 1];
    the gap it reports is [gaps[de-1]] and no gap exceeds it.  When the
    array is sorted in non-increasing order that gap is at least 1. *)
Theorem maxgap_positive_spectrum :
  forall (ev : loc) (h : heap) (v : list float),
    h !! ev = Some v -> (2 <= length v)%nat -> Forall positive_entry v ->
    exists de g,
      _maxgap ev h = (Ok (de, g), h) /\
      1 <= de <= len v - 1 /\
      nth_error (gaps_of v) (Z.to_nat (de - 1)) = Some g /\
      (forall x, In x (gaps_of v) -> F.gtb x g = false) /\
      (nonincreasing v -> F.gtb (Fin 1) g = false).
Proof.
  intros ev h v Hev Hlen Hpos.
  pose proof (gaps_of_positive v Hpos) as Hgp.
  pose proof (gaps_of_nonempty v Hlen) as Hne.
  assert (Hall : forallb F.isnan (gaps_of v) = false).
  { destruct (gaps_of v) as [|g0 gs]; [congruence|].
    inversion Hgp as [|? ? Hg0 _]; subst.
    destruct g0; simpl in Hg0; try tauto; reflexivity. }
  destruct (nanargmax_some _ Hne Hall) as [k Hk].
  rewrite (maxgap_unfold _ _ _ Hev), Hk.
  apply nanargmax_ok in Hk. destruct Hk as [n [-> [Hn Hfm]]].
  rewrite (nan_to_ninf_id _ Hgp) in Hfm.
  destruct Hfm as [m [Hm [Hmax _]]].
  destruct (report_gapAt (Z.of_nat n + 1) (gaps_of v) h Hne) as [g [Hg Hrun]];
    [lia|].
  unfold gapAt in Hg.
  destruct (Z.leb_spec 1 (Z.of_nat n + 1)); [|lia].
  destruct (Z.ltb_spec (Z.of_nat n + 1 - 1) (len (gaps_of v)));
    [|unfold len in *; lia].
  simpl andb in Hg. cbv iota in Hg.
  exists (Z.of_nat n + 1), g. split; [exact Hrun|].
  split; [rewrite length_gaps_of in Hn; unfold len; lia|].
  split; [exact Hg|].
  replace (Z.to_nat (Z.of_nat n + 1 - 1)) with n in Hg by lia.
  assert (g = m) by congruence. subst m.
  split.
  - intros x Hx. apply In_nth_error in Hx. destruct Hx as [j Hj].
    apply (Hmax j x Hj).
    rewrite List.Forall_forall in Hgp.
    pose proof (Hgp x (nth_error_In _ _ Hj)) as Hxp.
    destruct x; simpl in Hxp; try tauto; reflexivity.
  - intros Hs. apply nth_error_gaps_of_inv in Hg.
    destruct Hg as [x [y [Hx [Hy ->]]]].
    pose proof (nonincreasing_adjacent _ _ _ _ Hs Hx Hy) as Hxy.
    rewrite List.Forall_forall in Hpos.
    pose proof (Hpos y (nth_error_In _ _ Hy)) as Hyp.
    destruct x as [a| | |], y as [b| | |]; simpl in Hxy, Hyp; try tauto.
    simpl. destruct (Qeq_bool b 0) eqn:Hb.
    + apply Qeq_bool_iff in Hb. lra.
    + simpl. apply Qltb_ge. apply Qle_shift_div_l; lra.
Qed.

Lemma positive_ex : Forall positive_entry ex_spectrum.
Proof. repeat constructor; simpl; lra. Qed.

Lemma maxgap_positive_spectrum_witness :
  exists de g,
    _maxgap 1%positive (one_array ex_spectrum)
    = (Ok (de, g), one_array ex_spectrum) /\
    1 <= de <= len ex_spectrum - 1 /\
    nth_error (gaps_of ex_spectrum) (Z.to_nat (de - 1)) = Some g /\
    (forall x, In x (gaps_of ex_spectrum) -> F.gtb x g = false) /\
    (nonincreasing ex_spectrum -> F.gtb (Fin 1) g = false).
Proof.
  apply (maxgap_positive_spectrum 1%positive (one_array ex_spectrum)
                                  ex_spectrum).
  - reflexivity.
  - simpl. lia.
  - exact positive_ex.
Defined.

(** *** What [_fan] does to the heap *)

(** X11.  Whatever its outcome, [_fan] changes no array but the one it is
    given, and that one keeps its length. *)
Theorem fan_array_effects :
  forall (self : lPCA) (ev : loc) (h : heap) (v : list float),
    h !! ev = Some v ->
    (exists v', (snd (_fan self ev h) : heap) !! ev = Some v' /\
                length v' = length v) /\
    (forall ev', ev <> ev' ->
                 (snd (_fan self ev h) : heap) !! ev' = h !! ev').
Proof.
  intros self ev h v Hev. split; [|intros ev'; apply fan_frame].
  destruct (fan_tail_search self v) as [i|e] eqn:Hs.
  - destruct (fan_tail_search_ok _ _ _ Hs) as [r [-> Hr]].
    rewrite (fan_heap self ev h v r Hev Hr).
    exists (shifted v r). split; [apply lookup_insert_eq|apply length_shifted].
  - rewrite (fan_no_tail self ev h v e Hev Hs). exists v. auto.
Qed.

Lemma fan_array_effects_witness :
  (exists v', (snd (_fan (default "fan") 1%positive (one_array fan_ex)) : heap)
                !! 1%positive = Some v' /\
              length v' = length fan_ex) /\
  (forall ev', 1%positive <> ev' ->
               (snd (_fan (default "fan") 1%positive (one_array fan_ex)) : heap)
                 !! ev' = one_array fan_ex !! ev').
Proof.
  apply (fan_array_effects (default "fan") 1%positive (one_array fan_ex) fan_ex).
  reflexivity.
Defined.

(** ** Properties of the dispatch and of [fit] *)

Lemma with_gap_run (m : M (Z * float)) h :
  with_gap m h =
  match m h with
  | (Ok p, h') => (Ok (DimGap (fst p) (snd p)), h')
  | (Raise e, h') => (Raise e, h')
  end.
Proof. unfold with_gap, bind, ret. destruct (m h) as [[p|e] h']; reflexivity. Qed.

Lemma FO_dimension_range self ev h v de g h' :
  h !! ev = Some v -> _FO self ev h = (Ok (de, g), h') -> 0 <= de <= len v.
Proof.
  intros Hev Hrun. destruct v as [|v0 t].
  - unfold _FO, bind, load, lift in Hrun. rewrite Hev in Hrun. discriminate.
  - rewrite (FO_unfold _ _ _ _ _ Hev) in Hrun. apply report_dim in Hrun.
    subst de.
    pose proof (py_sum_bool_bounds
                  (map (fun x => F.gtb x (F.mul (alphaFO self) v0)) (v0 :: t))) as Hb.
    unfold len in *. rewrite length_map in Hb. exact Hb.
Qed.

Lemma maxgap_dimension_range ev h v de g h' :
  h !! ev = Some v -> _maxgap ev h = (Ok (de, g), h') -> 0 <= de <= len v.
Proof.
  intros Hev Hrun. rewrite (maxgap_unfold _ _ _ Hev) in Hrun.
  destruct (np.nanargmax (gaps_of v)) as [k|e] eqn:Hk; [|discriminate].
  apply nanargmax_ok in Hk. destruct Hk as [n [-> [Hn _]]].
  apply report_dim in Hrun. rewrite length_gaps_of in Hn. unfold len. lia.
Qed.

Lemma ratio_dimension_range self ev h v de h' :
  h !! ev = Some v -> _ratio self ev h = (Ok de, h') -> 0 <= de <= len v.
Proof.
  intros Hev Hrun.
  destruct (ratio_run self ev h v Hev) as [[n [[[Hn _] _] Hr]]|[_ Hr]];
    rewrite Hr in Hrun; injection Hrun as <- _; unfold len; lia.
Qed.

(** The shape of what the dispatch returns, by version string. *)
Lemma dispatch_shape self ev h :
  match fst (_pcaLocalDimEst self ev h) with
  | Ok (DimGap _ _) =>
      known_version (ver self) = true /\ String.eqb (ver self) "ratio" = false
  | Ok (Dim _) => String.eqb (ver self) "ratio" = true
  | Ok PyNone => known_version (ver self) = false
  | Raise _ => known_version (ver self) = true
  end.
Proof.
  unfold _pcaLocalDimEst, known_version.
  destruct (String.eqb (ver self) "FO") eqn:E1.
  { apply String.eqb_eq in E1. rewrite E1. simpl. rewrite with_gap_run.
    destruct (_FO self ev h) as [[p|e] h']; simpl; auto. }
  destruct (String.eqb (ver self) "fan") eqn:E2.
  { apply String.eqb_eq in E2. rewrite E2. simpl. rewrite with_gap_run.
    destruct (_fan self ev h) as [[p|e] h']; simpl; auto. }
  destruct (String.eqb (ver self) "maxgap") eqn:E3.
  { apply String.eqb_eq in E3. rewrite E3. simpl. rewrite with_gap_run.
    destruct (_maxgap ev h) as [[p|e] h']; simpl; auto. }
  destruct (String.eqb (ver self) "ratio") eqn:E4.
  { unfold bind, ret. destruct (_ratio self ev h) as [[p|e] h']; simpl; auto. }
  reflexivity.
Qed.

(** The dimension the dispatch returns is between 0 and the length of the
    spectrum. *)
Lemma dispatch_dimension_range self ev h v est h' :
  h !! ev = Some v -> _pcaLocalDimEst self ev h = (Ok est, h') ->
  match est with
  | DimGap de _ | Dim de => 0 <= de <= len v
  | PyNone => True
  end.
Proof.
  intros Hev. unfold _pcaLocalDimEst.
  destruct (String.eqb (ver self) "FO").
  { rewrite with_gap_run. destruct (_FO self ev h) as [[[de g]|e] h1] eqn:Hr;
      [|discriminate]. intros [= <- <-]. simpl.
    eapply FO_dimension_range; eauto. }
  destruct (String.eqb (ver self) "fan").
  { rewrite with_gap_run. destruct (_fan self ev h) as [[[de g]|e] h1] eqn:Hr;
      [|discriminate]. intros [= <- <-]. simpl.
    pose proof (fan_dimension_range self ev h v de g h1 Hev Hr). lia. }
  destruct (String.eqb (ver self) "maxgap").
  { rewrite with_gap_run. destruct (_maxgap ev h) as [[[de g]|e] h1] eqn:Hr;
      [|discriminate]. intros [= <- <-]. simpl.
    eapply maxgap_dimension_range; eauto. }
  destruct (String.eqb (ver self) "ratio").
  { unfold bind, ret. destruct (_ratio self ev h) as [[de|e] h1] eqn:Hr;
      [|discriminate]. intros [= <- <-].
    eapply ratio_dimension_range; eauto. }
  unfold ret. intros [= <- <-]. exact I.
Qed.

(** The dispatch changes no array but the spectrum it is given. *)
Lemma dispatch_frame self ev ev' h :
  ev <> ev' -> (snd (_pcaLocalDimEst self ev h) : heap) !! ev' = h !! ev'.
Proof.
  intros Hne. unfold _pcaLocalDimEst.
  destruct (String.eqb (ver self) "FO").
  { rewrite with_gap_run. pose proof (FO_heap self ev h) as Hh.
    destruct (_FO self ev h) as [[p|e] h1]; simpl in *; subst; reflexivity. }
  destruct (String.eqb (ver self) "fan").
  { rewrite with_gap_run. pose proof (fan_frame self ev ev' h Hne) as Hh.
    destruct (_fan self ev h) as [[p|e] h1]; simpl in *; exact Hh. }
  destruct (String.eqb (ver self) "maxgap").
  { rewrite with_gap_run. pose proof (maxgap_heap ev h) as Hh.
    destruct (_maxgap ev h) as [[p|e] h1]; simpl in *; subst; reflexivity. }
  destruct (String.eqb (ver self) "ratio").
  { unfold bind, ret. pose proof (ratio_heap self ev h) as Hh.
    destruct (_ratio self ev h) as [[p|e] h1]; simpl in *; subst; reflexivity. }
  reflexivity.
Qed.


Section Fit.

Context {ext : Sklearn}.

(** [fit] once the input has passed the three checks and the decomposition
    has answered [v]: the spectrum becomes a new array and the dispatch
    runs on it. *)
Lemma fit_after_checks self o X X' v h :
  check_array X = Ok X' -> shape0 X' <> 1 -> shape1 X' <> 1 ->
  forallb isfinite (cells X') = true ->
  pca_explained_variance X' = Ok v ->
  fit self o X h =
  match _pcaLocalDimEst self (fresh (dom h)) (<[fresh (dom h) := v]> h) with
  | (Raise e, h') => (Some (Exn e), o, h')
  | (Ok est, h') =>
      if String.eqb (ver self) "ratio" then
        (None, {| dimension_ := Some est; gap_ := gap_ o; is_fitted_ := true |}, h')
      else
        match est with
        | DimGap de gap =>
            (None, {| dimension_ := Some (Dim de); gap_ := Some gap;
                      is_fitted_ := true |}, h')
        | Dim _ | PyNone => (Some TypeError, o, h')
        end
  end.
Proof.
  intros Hc H0 H1 Hfin Hp. unfold fit. rewrite Hc.
  destruct (Z.eqb_spec (shape0 X') 1); [contradiction|].
  destruct (Z.eqb_spec (shape1 X') 1); [contradiction|].
  rewrite Hfin. simpl negb. cbv iota.
  unfold _pcaLocalDimEst_X, bind, lift, alloc. rewrite Hp. reflexivity.
Qed.

(** Every way [fit] can run: rejected before the decomposition, failed in
    the decomposition, or continued as in [fit_after_checks]. *)
Lemma fit_cases self o X h :
  (exists e, fit self o X h = (Some (Exn e), o, h)) \/
  (exists X' v,
      check_array X = Ok X' /\ shape0 X' <> 1 /\ shape1 X' <> 1 /\
      forallb isfinite (cells X') = true /\
      pca_explained_variance X' = Ok v).
Proof.
  unfold fit. destruct (check_array X) as [X'|e] eqn:Hc; [|left; eauto].
  destruct (Z.eqb_spec (shape0 X') 1); [left; eauto|].
  destruct (Z.eqb_spec (shape1 X') 1); [left; eauto|].
  destruct (forallb isfinite (cells X')) eqn:Hfin; [|left; eauto].
  simpl negb. cbv iota.
  destruct (pca_explained_variance X') as [v|e] eqn:Hp.
  - right. exists X', v. auto.
  - left. exists e. unfold _pcaLocalDimEst_X, bind, lift. rewrite Hp. reflexivity.
Qed.

(** X12.  What a successful [fit] guarantees: the input passed the three
    checks, the version string is one of the four, [is_fitted_] is set,
    [dimension_] holds an integer between 0 and the number of eigenvalues
    the decomposition returned; [gap_] is set for FO, fan and maxgap and
    keeps its previous value for ratio. *)
Theorem fit_success_postcondition :
  forall (self : lPCA) (o o' : fitted) (X : ndarray2) (h h' : heap),
    fit self o X h = (None, o', h') ->
    exists X' v de,
      check_array X = Ok X' /\ shape0 X' <> 1 /\ shape1 X' <> 1 /\
      forallb isfinite (cells X') = true /\
      pca_explained_variance X' = Ok v /\
      known_version (ver self) = true /\
      is_fitted_ o' = true /\
      dimension_ o' = Some (Dim de) /\ 0 <= de <= len v /\
      (if String.eqb (ver self) "ratio" then gap_ o' = gap_ o
       else exists g, gap_ o' = Some g).
Proof.
  intros self o o' X h h' Hfit.
  destruct (fit_cases self o X h) as [[e He]|[X' [v [Hc [H0 [H1 [Hfin Hp]]]]]]].
  { rewrite He in Hfit. discriminate. }
  rewrite (fit_after_checks self o X X' v h Hc H0 H1 Hfin Hp) in Hfit.
  set (ev := fresh (dom h)) in *.
  pose proof (dispatch_shape self ev (<[ev := v]> h)) as Hshape.
  destruct (_pcaLocalDimEst self ev (<[ev := v]> h)) as [[est|e] h1] eqn:Hd;
    [|discriminate].
  pose proof (dispatch_dimension_range self ev (<[ev := v]> h) v est h1
                (lookup_insert_eq _ _ _) Hd) as Hrange.
  simpl in Hshape.
  destruct (String.eqb (ver self) "ratio") eqn:Hratio.
  - injection Hfit as <- <-.
    destruct est as [de g|de|].
    + destruct Hshape; discriminate.
    + exists X', v, de. repeat split; auto; try lia.
      unfold known_version. rewrite Hratio. apply orb_true_r.
    + unfold known_version in Hshape. rewrite Hratio, orb_true_r in Hshape.
      discriminate.
  - destruct est as [de g|de|]; try discriminate.
    injection Hfit as <- <-. destruct Hshape as [Hk _].
    exists X', v, de. repeat split; auto; try lia. simpl. eauto.
Qed.

(** X13.  Exception safety of [fit]: when it ends in an exception the
    estimator's attributes are what they were, [is_fitted_] included; and
    the [TypeError] of the failed unpacking occurs only for a version
    string that is none of the four. *)
Theorem fit_exception_safety :
  forall (self : lPCA) (o o' : fitted) (X : ndarray2) (h h' : heap)
         (e : fit_exn),
    fit self o X h = (Some e, o', h') ->
    o' = o /\ (e = TypeError -> known_version (ver self) = false).
Proof.
  intros self o o' X h h' e Hfit.
  destruct (fit_cases self o X h) as [[e0 He]|[X' [v [Hc [H0 [H1 [Hfin Hp]]]]]]].
  { rewrite He in Hfit. injection Hfit as <- <- _. split; [reflexivity|discriminate]. }
  rewrite (fit_after_checks self o X X' v h Hc H0 H1 Hfin Hp) in Hfit.
  set (ev := fresh (dom h)) in *.
  pose proof (dispatch_shape self ev (<[ev := v]> h)) as Hshape.
  destruct (_pcaLocalDimEst self ev (<[ev := v]> h)) as [[est|e1] h1] eqn:Hd.
  - simpl in Hshape. destruct (String.eqb (ver self) "ratio") eqn:Hratio;
      [discriminate|].
    destruct est as [de g|de|]; try discriminate.
    injection Hfit as <- <- _. split; [reflexivity|intros _; exact Hshape].
  - injection Hfit as <- <- _. split; [reflexivity|discriminate].
Qed.

(** X14.  A version string that is none of ['FO'], ['fan'], ['maxgap'],
    ['ratio'] is not rejected up front: [fit] validates the input, runs
    the decomposition, allocates the spectrum, and only then fails with
    the [TypeError] of unpacking [None]. *)
Theorem fit_unknown_version_raises_TypeError :
  forall (self : lPCA) (o : fitted) (X X' : ndarray2) (v : list float)
         (h : heap),
    known_version (ver self) = false ->
    check_array X = Ok X' -> shape0 X' <> 1 -> shape1 X' <> 1 ->
    forallb isfinite (cells X') = true ->
    pca_explained_variance X' = Ok v ->
    fit self o X h = (Some TypeError, o, <[fresh (dom h) := v]> h).
Proof.
  intros self o X X' v h Hk Hc H0 H1 Hfin Hp.
  rewrite (fit_after_checks self o X X' v h Hc H0 H1 Hfin Hp).
  unfold known_version in Hk.
  apply orb_false_elim in Hk. destruct Hk as [Hk E4].
  apply orb_false_elim in Hk. destruct Hk as [Hk E3].
  apply orb_false_elim in Hk. destruct Hk as [E1 E2].
  unfold _pcaLocalDimEst. rewrite E1, E2, E3, E4. reflexivity.
Qed.


(** X16.  With version ['ratio'] [fit] succeeds on every input that passes
    the checks and decomposes; with version ['FO'] it succeeds as soon as
    the decomposition returns at least two eigenvalues. *)
Theorem fit_FO_and_ratio_succeed :
  forall (self : lPCA) (o : fitted) (X X' : ndarray2) (v : list float)
         (h : heap),
    check_array X = Ok X' -> shape0 X' <> 1 -> shape1 X' <> 1 ->
    forallb isfinite (cells X') = true ->
    pca_explained_variance X' = Ok v ->
    ver self = "ratio"%string \/
    (ver self = "FO"%string /\ (2 <= length v)%nat) ->
    exists o', fit self o X h = (None, o', <[fresh (dom h) := v]> h) /\
               is_fitted_ o' = true.
Proof.
  intros self o X X' v h Hc H0 H1 Hfin Hp Hver.
  rewrite (fit_after_checks self o X X' v h Hc H0 H1 Hfin Hp).
  set (ev := fresh (dom h)).
  assert (Hev : (<[ev := v]> h : heap) !! ev = Some v) by apply lookup_insert_eq.
  unfold _pcaLocalDimEst. destruct Hver as [Hr|[Hfo Hlen]].
  - rewrite Hr. simpl. unfold bind, ret.
    destruct (ratio_run self ev _ v Hev) as [[n [_ Hrun]]|[_ Hrun]];
      rewrite Hrun; eexists; split; reflexivity.
  - rewrite Hfo. simpl. rewrite with_gap_run.
    destruct v as [|v0 [|v1 t]]; simpl in Hlen; try lia.
    destruct (FO_result self ev _ v0 (v1 :: t) Hev) as [g [_ Hrun]];
      [discriminate|].
    rewrite Hrun. eexists; split; reflexivity.
Qed.

End Fit.

Lemma fit_success_postcondition_witness :
  exists X' v de,
    @check_array (answering ex_spectrum) X_ex = Ok X' /\
    shape0 X' <> 1 /\ shape1 X' <> 1 /\
    forallb isfinite (cells X') = true /\
    @pca_explained_variance (answering ex_spectrum) X' = Ok v /\
    known_version (ver (default "FO")) = true /\
    is_fitted_ (snd (fst (@fit (answering ex_spectrum) (default "FO")
                               unfitted X_ex ∅))) = true /\
    dimension_ (snd (fst (@fit (answering ex_spectrum) (default "FO")
                               unfitted X_ex ∅))) = Some (Dim de) /\
    0 <= de <= len v /\
    (if String.eqb (ver (default "FO")) "ratio"
     then gap_ (snd (fst (@fit (answering ex_spectrum) (default "FO")
                               unfitted X_ex ∅))) = gap_ unfitted
     else exists g,
         gap_ (snd (fst (@fit (answering ex_spectrum) (default "FO")
                              unfitted X_ex ∅))) = Some g).
Proof.
  apply (@fit_success_postcondition (answering ex_spectrum) (default "FO")
           unfitted _ X_ex ∅
           (snd (@fit (answering ex_spectrum) (default "FO") unfitted X_ex ∅))).
  reflexivity.
Defined.

Lemma fit_exception_safety_witness :
  snd (fst (@fit (answering flat_ex) (default "fan") unfitted X_ex ∅))
  = unfitted /\
  (Exn ValueError = TypeError -> known_version (ver (default "fan")) = false).
Proof.
  apply (@fit_exception_safety (answering flat_ex) (default "fan")
           unfitted
           (snd (fst (@fit (answering flat_ex) (default "fan") unfitted X_ex ∅)))
           X_ex ∅
           (snd (@fit (answering flat_ex) (default "fan") unfitted X_ex ∅))
           (Exn ValueError)).
  reflexivity.
Defined.

Lemma fit_unknown_version_raises_TypeError_witness :
  @fit (answering ex_spectrum) (default "pca") unfitted X_ex ∅ =
  (Some TypeError, unfitted, <[fresh (dom (∅ : heap)) := ex_spectrum]> ∅).
Proof.
  apply (@fit_unknown_version_raises_TypeError (answering ex_spectrum)
           (default "pca") unfitted X_ex X_ex ex_spectrum ∅).
  - reflexivity.
  - reflexivity.
  - discriminate.
  - discriminate.
  - reflexivity.
  - reflexivity.
Defined.


Lemma fit_FO_and_ratio_succeed_witness :
  exists o',
    @fit (answering ex_spectrum) (default "FO") unfitted X_ex ∅ =
    (None, o', <[fresh (dom (∅ : heap)) := ex_spectrum]> ∅) /\
    is_fitted_ o' = true.
Proof.
  apply (@fit_FO_and_ratio_succeed (answering ex_spectrum) (default "FO")
           unfitted X_ex X_ex ex_spectrum ∅).
  - reflexivity.
  - discriminate.
  - discriminate.
  - reflexivity.
  - reflexivity.
  - right. split; [reflexivity|simpl; lia].
Defined.

(** *** The dispatch *)

(** X18.  The contract of the dispatch on a live spectrum of length [d]:
    it returns a pair for ['FO'], ['fan'] and ['maxgap'], a bare integer
    for ['ratio'] and [None] for any other version string; a returned
    dimension lies between 0 and [d]; an exception can only come from FO,
    fan or maxgap; and no array but the spectrum is changed. *)
Theorem dispatch_contract :
  forall (self : lPCA) (ev : loc) (h : heap) (v : list float),
    h !! ev = Some v ->
    match fst (_pcaLocalDimEst self ev h) with
    | Ok (DimGap de _) =>
        known_version (ver self) = true /\
        String.eqb (ver self) "ratio" = false /\ 0 <= de <= len v
    | Ok (Dim de) => String.eqb (ver self) "ratio" = true /\ 0 <= de <= len v
    | Ok PyNone => known_version (ver self) = false
    | Raise _ =>
        known_version (ver self) = true /\
        String.eqb (ver self) "ratio" = false
    end /\
    (forall ev', ev <> ev' ->
                 (snd (_pcaLocalDimEst self ev h) : heap) !! ev' = h !! ev').
Proof.
  intros self ev h v Hev. split; [|intros ev'; apply dispatch_frame].
  pose proof (dispatch_shape self ev h) as Hshape.
  destruct (_pcaLocalDimEst self ev h) as [[est|e] h1] eqn:Hd; simpl in *.
  - pose proof (dispatch_dimension_range self ev h v est h1 Hev Hd) as Hr.
    destruct est; intuition.
  - split; [exact Hshape|].
    destruct (String.eqb (ver self) "ratio") eqn:Hratio; [|reflexivity].
    exfalso. unfold _pcaLocalDimEst in Hd.
    apply String.eqb_eq in Hratio. rewrite Hratio in Hd. simpl in Hd.
    unfold bind, ret in Hd.
    destruct (ratio_run self ev h v Hev) as [[n [_ Hrun]]|[_ Hrun]];
      rewrite Hrun in Hd; discriminate.
Qed.

Lemma dispatch_contract_witness :
  match fst (_pcaLocalDimEst (default "maxgap") 1%positive (one_array ex_spectrum)) with
  | Ok (DimGap de _) =>
      known_version (ver (default "maxgap")) = true /\
      String.eqb (ver (default "maxgap")) "ratio" = false /\
      0 <= de <= len ex_spectrum
  | Ok (Dim de) =>
      String.eqb (ver (default "maxgap")) "ratio" = true /\
      0 <= de <= len ex_spectrum
  | Ok PyNone => known_version (ver (default "maxgap")) = false
  | Raise _ =>
      known_version (ver (default "maxgap")) = true /\
      String.eqb (ver (default "maxgap")) "ratio" = false
  end /\
  (forall ev', 1%positive <> ev' ->
               (snd (_pcaLocalDimEst (default "maxgap") 1%positive
                                     (one_array ex_spectrum)) : heap) !! ev'
               = one_array ex_spectrum !! ev').
Proof.
  apply (dispatch_contract (default "maxgap") 1%positive
                           (one_array ex_spectrum) ex_spectrum).
  reflexivity.
Defined.

(** ** The fan rule against its contract, and the bounds of all four rules *)

Lemma gaps_of_ratios v : gaps_of v = ratios v.
Proof.
  induction v as [|x [|y t] IH]; try reflexivity.
  rewrite gaps_of_cons2, IH. reflexivity.
Qed.

Lemma sum_from_fold l : forall acc, sum_from acc l = fold_left F.add l acc.
Proof. induction l as [|x t IH]; intros acc; simpl; auto. Qed.

Lemma py_sum_sum_lr v : py_sum v = sum_lr v.
Proof. unfold py_sum, sum_lr, F.zero. rewrite sum_from_fold. reflexivity. Qed.

Lemma np_mean_mean_of l : np.mean l = mean_of l.
Proof.
  destruct l as [|x t]; [reflexivity|].
  unfold np.mean, np.sum, mean_of, F.of_Z, len.
  rewrite sum_from_fold. reflexivity.
Qed.

Lemma cum_fraction_fraction_of v i : cum_fraction v i = fraction_of v i.
Proof. unfold cum_fraction, fraction_of. rewrite py_sum_sum_lr. reflexivity. Qed.

Lemma shifted_shift_by v r : shifted v r = shift_by (mean_of (skipn r v)) v.
Proof. unfold shifted, shift_by. rewrite np_mean_mean_of. reflexivity. Qed.

Lemma fan_tail_iff self v r : fan_tail self v r <-> noise_tail_start self v r.
Proof.
  unfold fan_tail, noise_tail_start.
  split; apply least_ext; intros j; rewrite cum_fraction_fraction_of; reflexivity.
Qed.

Lemma fan_cut_iff self v' i : fan_cut self v' i <-> fan_stop self v' i.
Proof.
  unfold fan_cut, fan_stop. rewrite cum_fraction_fraction_of. split.
  - intros [[x [y [Hx [Hy Hgt]]]]|H]; [left|right; exact H].
    exists (F.div x y). split; [apply nth_error_gaps_of; assumption|exact Hgt].
  - intros [[g [Hg Hgt]]|H]; [left|right; exact H].
    apply nth_error_gaps_of_inv in Hg. destruct Hg as [x [y [Hx [Hy ->]]]].
    exists x, y. auto.
Qed.

(** Once the noise tail is found and some index satisfies a stopping
    condition, [_fan] returns one plus the smallest such index. *)
Lemma fan_returns_if_cut self ev h v r :
  h !! ev = Some v -> (2 <= length v)%nat ->
  noise_tail_start self v r ->
  (exists i, fan_stop self (shifted v r) i) ->
  exists i g,
    least (fan_stop self (shifted v r)) i /\
    gapAt (gaps_of (shifted v r)) (1 + Z.of_nat i) = Some g /\
    _fan self ev h = (Ok (1 + Z.of_nat i, g), <[ev := shifted v r]> h).
Proof.
  intros Hev Hlen Hr [j Hj].
  destruct (fan_cut_search self (shifted v r)) as [k|e] eqn:Hc.
  - apply fan_cut_search_ok in Hc. destruct Hc as [i [-> Hi]].
    destruct (proj1 (fan_cases self ev h v r Hev Hlen Hr) i Hi) as [g [Hg Hrun]].
    exists i, g. auto.
  - exfalso. exact (no_stop_of_search _ _ _ Hc j Hj).
Qed.

Lemma fan_tail_of_search self v r :
  fan_tail_search self v = Ok (Z.of_nat r) -> fan_tail self v r.
Proof. intros Hs. apply fan_tail_iff, noise_tail_of_search, Hs. Qed.

Lemma fan_cut_of_search self v' i :
  fan_cut_search self v' = Ok (Z.of_nat i) -> least (fan_cut self v') i.
Proof.
  intros Hs. apply least_stop_of_search in Hs.
  eapply least_ext; [|exact Hs]. intros j. symmetry. apply fan_cut_iff.
Qed.

(** C5, as the code has it.  Whenever a smallest index [r] with
    [cumsum(v)[r]/sum(v) > PFan] exists, the fan rule takes
    [sigma = mean(v[r:])], overwrites the array with [v' = v - sigma], and,
    if [i] is the smallest index at which the gap [v'[i]/v'[i+1]] exceeds
    [alphaFan] or [cumsum(v')[i]/sum(v')] exceeds [betaFan], returns
    [1 + i] with [gapAt (1 + i)] taken in the gaps of [v']. *)
Theorem fan_first_stop :
  forall (self : lPCA) (ev : loc) (h : heap) (v : list float) (r i : nat),
    h !! ev = Some v -> (2 <= length v)%nat ->
    fan_tail self v r ->
    least (fan_cut self (shift_by (mean_of (skipn r v)) v)) i ->
    exists g,
      gapAt (ratios (shift_by (mean_of (skipn r v)) v)) (1 + Z.of_nat i)
      = Some g /\
      _fan self ev h =
      (Ok (1 + Z.of_nat i, g), <[ev := shift_by (mean_of (skipn r v)) v]> h).
Proof.
  intros self ev h v r i Hev Hlen Hr Hi.
  apply fan_tail_iff in Hr.
  rewrite <- shifted_shift_by in *. rewrite <- gaps_of_ratios.
  apply (proj1 (fan_cases self ev h v r Hev Hlen Hr)).
  eapply least_ext; [|exact Hi]. intros j. apply fan_cut_iff.
Qed.

Lemma fan_first_stop_witness :
  exists g,
    gapAt (ratios (shift_by (mean_of (skipn 3 fan_ex)) fan_ex)) (1 + Z.of_nat 1)
    = Some g /\
    _fan (default "fan") 1%positive (one_array fan_ex) =
    (Ok (1 + Z.of_nat 1, g),
     <[1%positive := shift_by (mean_of (skipn 3 fan_ex)) fan_ex]>
       (one_array fan_ex)).
Proof.
  apply (fan_first_stop (default "fan") 1%positive (one_array fan_ex)
                        fan_ex 3%nat 1%nat).
  - reflexivity.
  - simpl. lia.
  - apply fan_tail_of_search. reflexivity.
  - apply fan_cut_of_search. reflexivity.
Defined.

Lemma spectrum_fan_ex : spectrum fan_ex.
Proof.
  split.
  - simpl. lia.
  - repeat constructor; simpl; lra.
  - simpl. repeat split; lra.
Qed.

(** C5 as stated fails at [PFan = 1], inside its range (0, 1]: on the
    valid spectrum [10, 9, 1, 1, 1], of total 22, no cumulative fraction
    exceeds 1, so there is no index [r] to take, and the fan rule raises
    [IndexError] although the spectrum shifted by any noise level would
    offer a cut-off. *)
Lemma fan_PFan_one_counterexample :
  spectrum fan_ex /\
  sum_lr fan_ex = Fin (0 + 10 + 9 + 1 + 1 + 1) /\
  PFan fan_PFan_one = Fin 1 /\
  (forall r, ~ fan_tail fan_PFan_one fan_ex r) /\
  _fan fan_PFan_one 1%positive (one_array fan_ex)
  = (Raise IndexError, one_array fan_ex) /\
  ~ (forall v, spectrum v -> exists r, fan_tail fan_PFan_one v r).
Proof.
  assert (Hnone : forall r, ~ fan_tail fan_PFan_one fan_ex r).
  { intros r Hr. apply fan_tail_iff, fan_tail_search_least in Hr.
    vm_compute in Hr. discriminate. }
  split; [exact spectrum_fan_ex|]. split; [reflexivity|].
  split; [reflexivity|]. split; [exact Hnone|]. split; [reflexivity|].
  intros Hall. destruct (Hall _ spectrum_fan_ex) as [r Hr].
  exact (Hnone r Hr).
Qed.

(** All the gaps of an all-zero spectrum are [nan]. *)
Lemma zero_head_gaps_nan v0 t :
  spectrum (v0 :: t) -> ~ positive_entry v0 ->
  forallb F.isnan (gaps_of (v0 :: t)) = true.
Proof.
  intros [_ Hnn Hs] Hz.
  assert (Hmax : Forall (fin_ge v0) (v0 :: t)).
  { apply nonincreasing_head_max; [|exact Hs].
    apply nonneg_fin_ge. inversion Hnn; assumption. }
  assert (Hzero : forall x, In x (v0 :: t) -> exists q, x = Fin q /\ (q == 0)%Q).
  { intros x Hx. rewrite List.Forall_forall in Hnn, Hmax.
    pose proof (Hnn x Hx) as Hxn. pose proof (Hmax x Hx) as Hxm.
    pose proof (Hnn v0 (or_introl eq_refl)) as H0.
    destruct v0 as [q0| | |], x as [q| | |]; simpl in *; try tauto.
    exists q. split; [reflexivity|]. lra. }
  apply forallb_forall. intros g Hg.
  apply In_nth_error in Hg. destruct Hg as [i Hi].
  apply nth_error_gaps_of_inv in Hi. destruct Hi as [x [y [Hx [Hy ->]]]].
  destruct (Hzero x (nth_error_In _ _ Hx)) as [a [-> Ha]].
  destruct (Hzero y (nth_error_In _ _ Hy)) as [b [-> Hb]].
  simpl. assert (E : Qeq_bool b 0 = true) by (apply Qeq_bool_iff; exact Hb).
  rewrite E. unfold F.scale_inf.
  destruct (Qltb 0 a) eqn:E1; [apply Qltb_lt in E1; lra|].
  destruct (Qltb a 0) eqn:E2; [apply Qltb_lt in E2; lra|]. reflexivity.
Qed.

(** The first gap of a spectrum with a positive head is not [nan]. *)
Lemma positive_head_gap v0 t :
  spectrum (v0 :: t) -> positive_entry v0 ->
  forallb F.isnan (gaps_of (v0 :: t)) = false.
Proof.
  intros [Hlen Hnn _] Hp.
  destruct t as [|v1 t]; [simpl in Hlen; lia|].
  rewrite gaps_of_cons2. simpl forallb.
  inversion Hnn as [|? ? _ Ht]; subst. inversion Ht as [|? ? H1 _]; subst.
  destruct v0 as [q0| | |], v1 as [q1| | |]; simpl in Hp, H1; try tauto.
  simpl. destruct (Qeq_bool q1 0); [|reflexivity].
  unfold F.scale_inf.
  assert (E : Qltb 0 q0 = true) by (apply Qltb_lt; exact Hp).
  rewrite E. reflexivity.
Qed.

(** C1, as the code has it.  On a valid spectrum [v0 :: t] of [d]
    eigenvalues.  FO always returns, with [0 <= dimension <= d], and
    [1 <= dimension] exactly when [v0] exceeds the threshold
    [alphaFO * v0] the rule compares it with.  Ratio always returns, with
    [1 <= dimension <= d].  Maxgap returns, with
    [1 <= dimension <= d - 1], exactly when [v0] is positive, and raises
    [ValueError] on the all-zero spectrum.  Fan returns, with
    [1 <= dimension <= d], whenever its noise-tail index exists and some
    index of the shifted spectrum satisfies a stopping condition; any
    estimate it returns satisfies [1 <= dimension <= d]. *)
Theorem dimension_bounds :
  forall (self : lPCA) (ev : loc) (h : heap) (v0 : float) (t : list float),
    h !! ev = Some (v0 :: t) -> spectrum (v0 :: t) ->
    (exists de g,
        _FO self ev h = (Ok (de, g), h) /\ 0 <= de <= len (v0 :: t) /\
        (1 <= de <-> F.gtb v0 (F.mul (alphaFO self) v0) = true)) /\
    (exists de, _ratio self ev h = (Ok de, h) /\ 1 <= de <= len (v0 :: t)) /\
    (positive_entry v0 ->
     exists de g, _maxgap ev h = (Ok (de, g), h) /\
                  1 <= de <= len (v0 :: t) - 1) /\
    (~ positive_entry v0 -> _maxgap ev h = (Raise ValueError, h)) /\
    (forall r,
        fan_tail self (v0 :: t) r ->
        (exists i, fan_cut self (shift_by (mean_of (skipn r (v0 :: t)))
                                          (v0 :: t)) i) ->
        exists de g,
          _fan self ev h =
          (Ok (de, g),
           <[ev := shift_by (mean_of (skipn r (v0 :: t))) (v0 :: t)]> h) /\
          1 <= de <= len (v0 :: t)) /\
    (forall de g h', _fan self ev h = (Ok (de, g), h') ->
                     1 <= de <= len (v0 :: t)).
Proof.
  intros self ev h v0 t Hev Hsp.
  pose proof Hsp as [Hlen Hnn Hs].
  assert (Ht : t <> []) by (destruct t; simpl in Hlen; [lia|discriminate]).
  split; [|split; [|split; [|split; [|split]]]].
  - destruct (FO_result self ev h v0 t Hev Ht) as [g [_ Hrun]].
    eexists. exists g. split; [exact Hrun|].
    split; [apply count_exceeding_bounds|].
    pose proof (sorted_exceeding_prefix (F.mul (alphaFO self) v0) (v0 :: t) Hs
                  0%nat v0 eq_refl) as Hhead.
    rewrite Hhead. simpl Z.of_nat. lia.
  - destruct (ratio_run self ev h _ Hev) as [[n [[[Hn _] _] Hrun]]|[_ Hrun]];
      eexists; (split; [exact Hrun|]); unfold len in *; simpl length in *; lia.
  - intros Hp.
    apply (proj1 (maxgap_cases ev h _ Hev Hlen)).
    apply positive_head_gap; assumption.
  - intros Hz.
    apply (proj1 (proj2 (maxgap_cases ev h _ Hev Hlen))).
    apply zero_head_gaps_nan; assumption.
  - intros r Hr [i Hi].
    apply fan_tail_iff in Hr. rewrite <- shifted_shift_by in *.
    destruct (fan_returns_if_cut self ev h _ r Hev Hlen Hr) as [j [g [Hj [_ Hrun]]]].
    { exists i. apply fan_cut_iff. exact Hi. }
    exists (1 + Z.of_nat j), g. split; [exact Hrun|].
    destruct Hj as [Hj _]. apply fan_stop_lt in Hj.
    rewrite length_shifted in Hj. unfold len. lia.
  - intros de g h' Hrun. eapply fan_dimension_range; eauto.
Qed.

Lemma dimension_bounds_witness :
  (exists de g,
      _FO (default "FO") 1%positive (one_array ex_spectrum)
      = (Ok (de, g), one_array ex_spectrum) /\
      0 <= de <= len ex_spectrum /\
      (1 <= de <->
       F.gtb (Fin 10) (F.mul (alphaFO (default "FO")) (Fin 10)) = true)) /\
  (exists de, _ratio (default "FO") 1%positive (one_array ex_spectrum)
              = (Ok de, one_array ex_spectrum) /\ 1 <= de <= len ex_spectrum) /\
  (exists de g, _maxgap 1%positive (one_array ex_spectrum)
                = (Ok (de, g), one_array ex_spectrum) /\
                1 <= de <= len ex_spectrum - 1) /\
  _maxgap 1%positive (one_array zero_spectrum)
  = (Raise ValueError, one_array zero_spectrum) /\
  (exists de g,
      _fan (default "FO") 1%positive (one_array ex_spectrum)
      = (Ok (de, g),
         <[1%positive := shift_by (mean_of (skipn 2 ex_spectrum)) ex_spectrum]>
           (one_array ex_spectrum)) /\
      1 <= de <= len ex_spectrum).
Proof.
  destruct (dimension_bounds (default "FO") 1%positive (one_array ex_spectrum)
              (Fin 10) [Fin 9; Fin 1; Fin (9 # 10); Fin (1 # 10)]
              eq_refl spectrum_ex)
    as [HFO [Hratio [Hmax [_ [Hfan _]]]]].
  destruct (dimension_bounds (default "FO") 1%positive (one_array zero_spectrum)
              (Fin 0) [Fin 0] eq_refl spectrum_zero)
    as [_ [_ [_ [Hzero _]]]].
  split; [exact HFO|]. split; [exact Hratio|].
  split; [apply Hmax; reflexivity|].
  split; [apply Hzero; simpl; intros H; inversion H|].
  apply (Hfan 2%nat).
  - apply fan_tail_of_search. reflexivity.
  - exists 1%nat. apply (fan_cut_of_search (default "FO")). reflexivity.
Defined.

(** *** Further properties of the fan and ratio rules *)

(** X8.  With [PFan >= 1] the fan rule never finds its noise tail on a
    finite non-negative array: no cumulative fraction exceeds [PFan], the
    rule raises [IndexError], and the array is left as it was. *)
Theorem fan_raises_when_PFan_reaches_one :
  forall (self : lPCA) (ev : loc) (h : heap) (v : list float) (p : Q),
    h !! ev = Some v -> Forall nonneg v ->
    PFan self = Fin p -> (1 <= p)%Q ->
    _fan self ev h = (Raise IndexError, h).
Proof.
  intros self ev h v p Hev Hnn Hp Hp1.
  destruct (fan_tail_search self v) as [i|e] eqn:Hs.
  - destruct (fan_tail_search_ok _ _ _ Hs) as [r [_ [[_ Hr] _]]].
    rewrite Hp, (fraction_le_one v r p Hnn Hp1) in Hr. discriminate.
  - exact (fan_no_tail self ev h v e Hev Hs).
Qed.

Lemma fan_raises_when_PFan_reaches_one_witness :
  _fan fan_PFan_one 1%positive (one_array ex_spectrum)
  = (Raise IndexError, one_array ex_spectrum).
Proof.
  apply (fan_raises_when_PFan_reaches_one fan_PFan_one 1%positive
           (one_array ex_spectrum) ex_spectrum 1).
  - reflexivity.
  - exact (sp_nonneg _ spectrum_ex).
  - reflexivity.
  - unfold Qle. simpl. lia.
Defined.

(** X17.  The ratio rule compares raw running sums with [alphaRatio]: it
    returns 1 as soon as the first eigenvalue alone exceeds [alphaRatio];
    and on a finite non-negative array whose last running sum does not
    exceed [alphaRatio], no running sum does and it returns the full
    length [d]. *)
Theorem ratio_extremes :
  forall (self : lPCA) (ev : loc) (h : heap) (v : list float),
    h !! ev = Some v ->
    (forall x t, v = x :: t -> F.gtb x (alphaRatio self) = true ->
                 _ratio self ev h = (Ok 1, h)) /\
    (forall a, Forall nonneg v -> alphaRatio self = Fin a ->
               F.gtb (prefix_sum v (length v)) (Fin a) = false ->
               _ratio self ev h = (Ok (len v), h)).
Proof.
  intros self ev h v Hev. split.
  - intros x t -> Hx.
    destruct (ratio_run self ev h (x :: t) Hev)
      as [[n [[_ Hmin] Hrun]]|[Hnone _]].
    + destruct n as [|n]; [exact Hrun|]. exfalso.
      apply (Hmin 0%nat); [lia|]. split; [simpl; lia|exact Hx].
    + specialize (Hnone 0%nat ltac:(simpl; lia)).
      unfold prefix_sum in Hnone. simpl in Hnone.
      rewrite Hx in Hnone. discriminate.
  - intros a Hnn Ha Hlast.
    destruct (ratio_run self ev h v Hev) as [[n [[[Hn Hgt] _] _]]|[_ Hrun]];
      [|exact Hrun].
    exfalso. rewrite Ha in Hgt.
    destruct (prefix_sum_fin v (S n) Hnn) as [q [Hq Heq]].
    destruct (prefix_sum_fin v (length v) Hnn) as [q' [Hq' Heq']].
    rewrite firstn_all in Heq'.
    rewrite Hq in Hgt. rewrite Hq' in Hlast. simpl in Hgt, Hlast.
    apply Qltb_lt in Hgt. apply Qltb_ge in Hlast.
    pose proof (total_firstn_le (S n) v Hnn). lra.
Qed.

Lemma ratio_extremes_witness :
  _ratio (default "ratio") 1%positive (one_array ex_spectrum)
  = (Ok 1, one_array ex_spectrum) /\
  _ratio (default "ratio") 1%positive (one_array tiny_ex)
  = (Ok (len tiny_ex), one_array tiny_ex).
Proof.
  split.
  - apply (proj1 (ratio_extremes (default "ratio") 1%positive
                                 (one_array ex_spectrum) ex_spectrum eq_refl)
                 (Fin 10) [Fin 9; Fin 1; Fin (9 # 10); Fin (1 # 10)]).
    + reflexivity.
    + reflexivity.
  - apply (proj2 (ratio_extremes (default "ratio") 1%positive
                                 (one_array tiny_ex) tiny_ex eq_refl)
                 (5 # 100)).
    + repeat constructor; simpl; unfold Qle; simpl; lia.
    + reflexivity.
    + reflexivity.
Defined.
